(** * Inventory manager: in-memory index, low-stock heap, write-through store

    A shallow embedding of [InventoryManager] from [src/app.py].

    - [items] is a Python [dict] (insertion ordered): an association list
      with the dictionary operations the class uses.
    - [low_stock_heap] is a Python [list] handled through [heapq]; the
      [heapq] functions are transcribed from CPython's [Lib/heapq.py]
      ([heappush], [heappop], [heapify], [_siftdown], [_siftup]).
    - quantities and the threshold are Python [int]s: [Z].
    - prices are Python [float]s: binary64, [PrimFloat.float].
    - names are Python [str]s, compared lexicographically by code point:
      [string], the UTF-8 bytes, whose lexicographic order is the same.
    - [sqlite3] is the environment: a type class whose calls may raise.
    - [str.lower] is a parameter of [search_items]: the case mapping of
      Unicode is not part of this development; [ascii_lower] is the
      mapping on ASCII names.
    - methods run in a state-and-exception monad over the manager object
      and the database. *)

From Stdlib Require Import ZArith List Bool Lia PeanoNat.
From Stdlib Require Import Permutation Sorted Floats OrdersEx RelationClasses.
From Stdlib Require String Ascii.
Import ListNotations.
Import String.StringSyntax.

Abbreviation string := String.string.

Local Open Scope Z_scope.
Local Open Scope string_scope.

(** ** Heap entries: the tuples [(quantity, name)] *)

Definition entry : Type := Z * string.

(** Python [a < b] on [str]. *)
Definition str_ltb (a b : string) : bool :=
  match String_as_OT.compare a b with Lt => true | _ => false end.

(** Python [a < b] on tuples [(int, str)]: first components decide unless
    they are equal. *)
Definition entry_ltb (a b : entry) : bool :=
  (fst a <? fst b)%Z || ((fst a =? fst b)%Z && str_ltb (snd a) (snd b)).

(** [a <= b], that is [not b < a]. *)
Definition entry_le (a b : entry) : Prop := entry_ltb b a = false.

(** ** Python lists used by index *)

(** [l[i] = x] for [i] in range (out of range leaves [l] as it is; [heapq]
    only writes in range). *)
Fixpoint list_set {A : Type} (l : list A) (i : nat) (x : A) : list A :=
  match l, i with
  | [], _ => []
  | _ :: t, O => x :: t
  | a :: t, S j => a :: list_set t j x
  end.

(** The filler read by [nth] out of range; [heapq] only reads in range. *)
Definition no_entry : entry := (0, "").

Definition item_at (l : list entry) (i : nat) : entry := nth i l no_entry.

(** ** [heapq] *)

Module heapq.

(** The loop of [_siftdown]: [pos] moves to its parent each round, so
    [pos] rounds are enough ([_siftdown_loop_fuel]): with [pos <= fuel]
    the loop condition [pos > startpos] is false when [fuel] is 0. *)
Fixpoint _siftdown_loop (fuel : nat) (heap : list entry)
    (startpos pos : nat) (newitem : entry) : list entry :=
  match fuel with
  | O => list_set heap pos newitem
  | S fuel' =>
      if (startpos <? pos)%nat then
        let parentpos := Nat.shiftr (pos - 1) 1 in
        let parent := item_at heap parentpos in
        if entry_ltb newitem parent
        then _siftdown_loop fuel' (list_set heap pos parent)
               startpos parentpos newitem
        else list_set heap pos newitem
      else list_set heap pos newitem
  end.

Definition _siftdown (heap : list entry) (startpos pos : nat) : list entry :=
  _siftdown_loop pos heap startpos pos (item_at heap pos).

(** The loop of [_siftup]: bubbles the smaller child up until [pos] is a
    leaf; returns the list and the leaf position. [pos] grows each round
    and stays below [endpos], so [endpos] rounds are enough
    ([_siftup_loop_ends]). *)
Fixpoint _siftup_loop (fuel : nat) (heap : list entry)
    (endpos pos : nat) : list entry * nat :=
  match fuel with
  | O => (heap, pos)
  | S fuel' =>
      let childpos := (2 * pos + 1)%nat in
      if (childpos <? endpos)%nat then
        let rightpos := (childpos + 1)%nat in
        let childpos :=
          if (rightpos <? endpos)%nat
             && negb (entry_ltb (item_at heap childpos) (item_at heap rightpos))
          then rightpos else childpos in
        _siftup_loop fuel' (list_set heap pos (item_at heap childpos))
          endpos childpos
      else (heap, pos)
  end.

Definition _siftup (heap : list entry) (pos : nat) : list entry :=
  let endpos := length heap in
  let startpos := pos in
  let newitem := item_at heap pos in
  let '(heap, pos) := _siftup_loop endpos heap endpos pos in
  let heap := list_set heap pos newitem in
  _siftdown heap startpos pos.

Definition heappush (heap : list entry) (item : entry) : list entry :=
  let heap := heap ++ [item] in
  _siftdown heap 0 (length heap - 1).

(** [heappop] raises [IndexError] on the empty list: [None]. *)
Definition heappop (heap : list entry) : option (entry * list entry) :=
  match heap with
  | [] => None
  | _ :: _ =>
      let lastelt := last heap no_entry in
      let heap := removelast heap in
      match heap with
      | [] => Some (lastelt, heap)
      | returnitem :: _ =>
          let heap := list_set heap 0 lastelt in
          Some (returnitem, _siftup heap 0)
      end
  end.

(** [for i in reversed(range(n//2)): _siftup(x, i)], with [k] counting
    the indices still to visit. *)
Fixpoint heapify_loop (k : nat) (x : list entry) : list entry :=
  match k with
  | O => x
  | S i => heapify_loop i (_siftup x i)
  end.

Definition heapify (x : list entry) : list entry :=
  heapify_loop (length x / 2) x.

End heapq.

(** ** The [items] dictionary *)

(** The inner dictionary [{'quantity': ..., 'price': ...}] of one item. *)
Record item : Type := { quantity : Z; price : float }.

(** A Python [dict] from names to items, in insertion order. *)
Definition dict : Type := list (string * item).

(** [d.get(name)]; [d[name]] where the key is present. *)
Fixpoint dict_get (d : dict) (name : string) : option item :=
  match d with
  | [] => None
  | (k, v) :: rest => if String.eqb k name then Some v else dict_get rest name
  end.

(** [name in d]. *)
Definition dict_contains (d : dict) (name : string) : bool :=
  match dict_get d name with Some _ => true | None => false end.

(** [d[name] = v]: a present key keeps its place, a new key goes last. *)
Fixpoint dict_setitem (d : dict) (name : string) (v : item) : dict :=
  match d with
  | [] => [(name, v)]
  | (k, x) :: rest =>
      if String.eqb k name then (k, v) :: rest
      else (k, x) :: dict_setitem rest name v
  end.

(** [d[name][field] = ...]: the inner dictionary of a present key is
    changed in place. *)
Fixpoint dict_modify (d : dict) (name : string) (f : item -> item) : dict :=
  match d with
  | [] => []
  | (k, x) :: rest =>
      if String.eqb k name then (k, f x) :: rest
      else (k, x) :: dict_modify rest name f
  end.

(** [del d[name]] for a present key. *)
Fixpoint dict_delitem (d : dict) (name : string) : dict :=
  match d with
  | [] => []
  | (k, x) :: rest =>
      if String.eqb k name then rest else (k, x) :: dict_delitem rest name
  end.

(** [data['quantity'] = q] and [data['price'] = p] on an inner dictionary. *)
Definition with_quantity (q : Z) (it : item) : item :=
  {| quantity := q; price := price it |}.

Definition with_price (p : float) (it : item) : item :=
  {| quantity := quantity it; price := p |}.

Definition dict_keys (d : dict) : list string := map fst d.

(** ** The manager object *)

Record InventoryManager : Type := {
  items : dict;
  low_stock_heap : list entry;
  threshold : Z
}.

Definition set_items (f : dict -> dict) (self : InventoryManager) :=
  {| items := f (items self);
     low_stock_heap := low_stock_heap self;
     threshold := threshold self |}.

Definition set_low_stock_heap (f : list entry -> list entry)
    (self : InventoryManager) :=
  {| items := items self;
     low_stock_heap := f (low_stock_heap self);
     threshold := threshold self |}.

Definition set_threshold_field (t : Z) (self : InventoryManager) :=
  {| items := items self;
     low_stock_heap := low_stock_heap self;
     threshold := t |}.

(** The dictionaries [{'name': ..., 'quantity': ..., 'price': ...}] that
    the listing methods return. *)
Record listing : Type := {
  l_name : string;
  l_quantity : Z;
  l_price : float
}.

(** ** [_rebuild_heap] *)

(** One round of [for name, data in self.items.items()]. *)
Definition rebuild_step (thr : Z) (heap : list entry)
    (kv : string * item) : list entry :=
  if (quantity (snd kv) <? thr)%Z
  then heapq.heappush heap (quantity (snd kv), fst kv)
  else heap.

Definition _rebuild_heap (self : InventoryManager) : InventoryManager :=
  set_low_stock_heap
    (fun _ => fold_left (rebuild_step (threshold self)) (items self) [])
    self.

(** ** [get_low_stock_items] *)

(** The [while self.low_stock_heap:] loop. Each round pops one entry;
    [fuel] bounds the rounds and [None] means it ran out (or that
    [heappop] raised); [get_low_stock_items_returns] shows that neither
    happens with the fuel given below. *)
Fixpoint drain_loop (fuel : nat) (d : dict) (thr : Z)
    (heap : list entry) (low_stock : list listing) (temp_heap : list entry)
    : option (list listing * list entry) :=
  match heap with
  | [] => Some (low_stock, temp_heap)
  | _ :: _ =>
      match fuel with
      | O => None
      | S fuel' =>
          match heapq.heappop heap with
          | None => None
          | Some ((_, name), heap') =>
              match dict_get d name with
              | Some it =>
                  if (quantity it <? thr)%Z then
                    drain_loop fuel' d thr heap'
                      (low_stock ++
                         [{| l_name := name;
                             l_quantity := quantity it;
                             l_price := price it |}])
                      (temp_heap ++ [(quantity it, name)])
                  else drain_loop fuel' d thr heap' low_stock temp_heap
              | None => drain_loop fuel' d thr heap' low_stock temp_heap
              end
          end
      end
  end.

Definition get_low_stock_items (self : InventoryManager)
    : option (list listing * InventoryManager) :=
  match drain_loop (length (low_stock_heap self)) (items self)
          (threshold self) (low_stock_heap self) [] [] with
  | None => None
  | Some (low_stock, temp_heap) =>
      Some (low_stock,
            set_low_stock_heap (fun _ => heapq.heapify temp_heap) self)
  end.

(** ** [get_all_items] *)

(** The loop [for name, data in self.items.items(): items_list.append(...)]. *)
Definition get_all_items (self : InventoryManager) : list listing :=
  fold_left
    (fun items_list kv =>
       items_list ++ [{| l_name := fst kv;
                         l_quantity := quantity (snd kv);
                         l_price := price (snd kv) |}])
    (items self) [].

(** ** [search_items] *)

(** [s.startswith(prefix)]. *)
Fixpoint str_startswith (prefix s : string) : bool :=
  match prefix, s with
  | String.EmptyString, _ => true
  | String.String _ _, String.EmptyString => false
  | String.String a prefix', String.String b s' =>
      Ascii.eqb a b && str_startswith prefix' s'
  end.

(** [needle in hay] on [str]: [needle] starts at some position of [hay]. *)
Fixpoint str_in (needle hay : string) : bool :=
  str_startswith needle hay ||
  match hay with
  | String.EmptyString => false
  | String.String _ rest => str_in needle rest
  end.

(** [str.lower] on ASCII: [A-Z] go to [a-z], every other byte stays. *)
Definition lower_byte (c : Ascii.ascii) : Ascii.ascii :=
  let n := Ascii.nat_of_ascii c in
  if ((65 <=? n)%nat && (n <=? 90)%nat)%bool
  then Ascii.ascii_of_nat (n + 32) else c.

Fixpoint ascii_lower (s : string) : string :=
  match s with
  | String.EmptyString => String.EmptyString
  | String.String c rest => String.String (lower_byte c) (ascii_lower rest)
  end.

Section Search.

(** [str.lower]. *)
Variable lower : string -> string.

Definition search_items (query : string) (self : InventoryManager)
    : list listing :=
  let query_lower := lower query in
  fold_left
    (fun results kv =>
       if str_in query_lower (lower (fst kv))
       then results ++ [{| l_name := fst kv;
                           l_quantity := quantity (snd kv);
                           l_price := price (snd kv) |}]
       else results)
    (items self) [].

End Search.

(** ** [sqlite3]: the persistent store *)

(** The exceptions a [sqlite3] call can raise: [sqlite3.IntegrityError],
    the only one [add_item] catches, and any other [sqlite3.Error]
    (locked database, full disk, ...). *)
Inductive exn : Type := IntegrityError | OperationalError.

(** The statements the manager executes. *)
Inductive statement : Type :=
| CreateItemsTable
| CreateSettingsTable
| InsertDefaultThreshold
| SelectItems
| SelectThreshold
| InsertItem (name : string) (quantity : Z) (price : float)
| UpdateQuantity (quantity : Z) (name : string)
| UpdatePrice (price : float) (name : string)
| DeleteItem (name : string)
| UpdateThreshold (value : Z).

(** The database as the manager sees it. Every call answers with the
    exception it raised, if any, and the database afterwards; nothing is
    assumed about when a call raises. [fetchall_items] and
    [fetchone_threshold] read the rows of the last [SELECT]; names are
    unique in the [items] table ([name TEXT UNIQUE NOT NULL]). *)
Class Sqlite3 (db : Type) : Type := {
  connect : db -> option exn * db;
  execute : statement -> db -> option exn * db;
  commit : db -> option exn * db;
  close : db -> option exn * db;
  fetchall_items : db -> list (string * Z * float);
  fetchone_threshold : db -> option Z;
  fetchall_items_unique :
    forall w, NoDup (map (fun r => fst (fst r)) (fetchall_items w))
}.

(** ** Methods as computations over the manager and the database *)

Inductive result (A : Type) : Type :=
| Returned (a : A)
| Raised (e : exn).
Arguments Returned {A} a.
Arguments Raised {A} e.

Section Methods.

Context {db : Type} `{Sqlite3 db}.

Definition world : Type := InventoryManager * db.

Definition M (A : Type) : Type := world -> result A * world.

Definition ret {A : Type} (a : A) : M A := fun w => (Returned a, w).

Definition bind {A B : Type} (c : M A) (k : A -> M B) : M B :=
  fun w =>
    match c w with
    | (Returned a, w') => k a w'
    | (Raised e, w') => (Raised e, w')
    end.

(** Reads [self]. *)
Definition get_self : M InventoryManager := fun w => (Returned (fst w), w).

(** An assignment to a field of [self]. *)
Definition assign (f : InventoryManager -> InventoryManager) : M unit :=
  fun w => (Returned tt, (f (fst w), snd w)).

(** A [sqlite3] call. *)
Definition sql (op : db -> option exn * db) : M unit :=
  fun w =>
    match op (snd w) with
    | (None, d) => (Returned tt, (fst w, d))
    | (Some e, d) => (Raised e, (fst w, d))
    end.

(** [cursor.fetchall()] and [cursor.fetchone()]. *)
Definition fetch {A : Type} (rows : db -> A) : M A :=
  fun w => (Returned (rows (snd w)), w).

(** [try: body except sqlite3.IntegrityError: handler]. *)
Definition try_except_IntegrityError {A : Type} (body handler : M A) : M A :=
  fun w =>
    match body w with
    | (Raised IntegrityError, w') => handler w'
    | r => r
    end.

Notation "x <- c ;; k" := (bind c (fun x => k))
  (at level 61, c at next level, right associativity).
Notation "c ;; k" := (bind c (fun _ => k))
  (at level 61, right associativity).

Definition init_db : M unit :=
  sql connect ;;
  sql (execute CreateItemsTable) ;;
  sql (execute CreateSettingsTable) ;;
  sql (execute InsertDefaultThreshold) ;;
  sql commit ;;
  sql close.

(** One round of [for name, quantity, price in items] in [load_items]. *)
Definition load_row (self : InventoryManager) (r : string * Z * float)
    : InventoryManager :=
  let '(name, quantity, price) := r in
  let self :=
    set_items
      (fun d => dict_setitem d name
                  {| quantity := quantity; price := price |}) self in
  if (quantity <? threshold self)%Z
  then set_low_stock_heap (fun h => heapq.heappush h (quantity, name)) self
  else self.

Definition load_items : M unit :=
  sql connect ;;
  sql (execute SelectItems) ;;
  rows <- fetch fetchall_items ;;
  sql (execute SelectThreshold) ;;
  threshold_row <- fetch fetchone_threshold ;;
  match threshold_row with
  | Some v => assign (set_threshold_field v)
  | None => ret tt
  end ;;
  sql close ;;
  assign (set_items (fun _ => [])) ;;
  assign (set_low_stock_heap (fun _ => [])) ;;
  assign (fun self => fold_left load_row rows self).

(** [__init__], run on the object being constructed. *)
Definition __init__ : M unit :=
  assign (fun _ => {| items := []; low_stock_heap := []; threshold := 10 |}) ;;
  init_db ;;
  load_items.

(** [InventoryManager()] over the database [d]. *)
Definition new_InventoryManager (d : db) : result unit * world :=
  __init__ ({| items := []; low_stock_heap := []; threshold := 10 |}, d).

Definition add_item (name : string) (quantity : Z) (price : float)
    : M (bool * string) :=
  self <- get_self ;;
  if dict_contains (items self) name then
    ret (false, "Item already exists")
  else
    sql connect ;;
    try_except_IntegrityError
      (sql (execute (InsertItem name quantity price)) ;;
       sql commit ;;
       sql close ;;
       assign (set_items
                 (fun d => dict_setitem d name
                             {| quantity := quantity; price := price |})) ;;
       self <- get_self ;;
       (if (quantity <? threshold self)%Z
        then assign (set_low_stock_heap
                       (fun h => heapq.heappush h (quantity, name)))
        else ret tt) ;;
       ret (true, "Item added successfully"))
      (sql close ;;
       ret (false, "Item already exists")).

(** [quantity=None] and [price=None] are [None]. *)
Definition update_item (name : string) (quantity : option Z)
    (price : option float) : M (bool * string) :=
  self <- get_self ;;
  if negb (dict_contains (items self) name) then
    ret (false, "Item not found")
  else
    sql connect ;;
    match quantity with
    | Some q =>
        assign (set_items (fun d => dict_modify d name (with_quantity q))) ;;
        sql (execute (UpdateQuantity q name))
    | None => ret tt
    end ;;
    match price with
    | Some p =>
        assign (set_items (fun d => dict_modify d name (with_price p))) ;;
        sql (execute (UpdatePrice p name))
    | None => ret tt
    end ;;
    sql commit ;;
    sql close ;;
    assign _rebuild_heap ;;
    ret (true, "Item updated successfully").

Definition delete_item (name : string) : M (bool * string) :=
  self <- get_self ;;
  if negb (dict_contains (items self) name) then
    ret (false, "Item not found")
  else
    sql connect ;;
    sql (execute (DeleteItem name)) ;;
    sql commit ;;
    sql close ;;
    assign (set_items (fun d => dict_delitem d name)) ;;
    assign _rebuild_heap ;;
    ret (true, "Item deleted successfully").

Definition set_threshold (threshold : Z) : M unit :=
  assign (set_threshold_field threshold) ;;
  sql connect ;;
  sql (execute (UpdateThreshold threshold)) ;;
  sql commit ;;
  sql close ;;
  assign _rebuild_heap.

(** ** Runs of the manager *)

(** The states a manager goes through: constructed over some database,
    then any sequence of calls, each of which returns to its caller;
    between calls the database may change in any way (other writers, or
    a call the store aborted before the manager was touched). A call
    that a store exception aborts after it has assigned to the manager is
    the subject of the theorems on failed writes below and does not
    extend a run. *)
Inductive reachable : world -> Prop :=
| reach_new d w :
    new_InventoryManager d = (Returned tt, w) -> reachable w
| reach_store w d :
    reachable w -> reachable (fst w, d)
| reach_add_item name quantity price w r w' :
    reachable w ->
    add_item name quantity price w = (Returned r, w') -> reachable w'
| reach_update_item name quantity price w r w' :
    reachable w ->
    update_item name quantity price w = (Returned r, w') -> reachable w'
| reach_delete_item name w r w' :
    reachable w ->
    delete_item name w = (Returned r, w') -> reachable w'
| reach_set_threshold t w w' :
    reachable w ->
    set_threshold t w = (Returned tt, w') -> reachable w'
| reach_get_low_stock_items w r self' :
    reachable w ->
    get_low_stock_items (fst w) = Some (r, self') -> reachable (self', snd w).

End Methods.

(** ** A database to run the methods on *)

(** Two tables in memory and a script of faults: each [sqlite3] call
    consumes the head of [faults] and raises it if there is one. A
    statement takes effect when it is executed; transactions are not
    modelled. *)
Module MemDb.

Definition row : Type := string * Z * float.

Definition row_name (r : row) : string := fst (fst r).

Record t : Type := {
  tbl_items : list row;
  tbl_threshold : option Z;
  faults : list (option exn)
}.

Definition has_name (rows : list row) (name : string) : bool :=
  existsb (fun r => String.eqb (row_name r) name) rows.

Definition run_statement (st : statement) (d : t) : option exn * t :=
  let put rows thr :=
    {| tbl_items := rows; tbl_threshold := thr; faults := faults d |} in
  match st with
  | CreateItemsTable | CreateSettingsTable | SelectItems | SelectThreshold =>
      (None, d)
  | InsertDefaultThreshold =>
      (None, put (tbl_items d)
               (match tbl_threshold d with
                | None => Some 10%Z
                | Some v => Some v
                end))
  | InsertItem name quantity price =>
      if has_name (tbl_items d) name then (Some IntegrityError, d)
      else (None, put (tbl_items d ++ [(name, quantity, price)])
                    (tbl_threshold d))
  | UpdateQuantity quantity name =>
      (None, put (map (fun r : row =>
                         if String.eqb (row_name r) name
                         then (name, quantity, snd r) else r) (tbl_items d))
               (tbl_threshold d))
  | UpdatePrice price name =>
      (None, put (map (fun r : row =>
                         if String.eqb (row_name r) name
                         then (name, snd (fst r), price) else r) (tbl_items d))
               (tbl_threshold d))
  | DeleteItem name =>
      (None, put (filter (fun r => negb (String.eqb (row_name r) name))
                    (tbl_items d))
               (tbl_threshold d))
  | UpdateThreshold value =>
      (None, put (tbl_items d)
               (match tbl_threshold d with
                | None => None
                | Some _ => Some value
                end))
  end.

(** A call under the fault script. *)
Definition call (op : t -> option exn * t) (d : t) : option exn * t :=
  match faults d with
  | Some e :: rest =>
      (Some e, {| tbl_items := tbl_items d;
                  tbl_threshold := tbl_threshold d;
                  faults := rest |})
  | None :: rest =>
      op {| tbl_items := tbl_items d;
            tbl_threshold := tbl_threshold d;
            faults := rest |}
  | [] => op d
  end.

(** The rows of [items], one per name. *)
Fixpoint unique_rows (rows : list row) : list row :=
  match rows with
  | [] => []
  | r :: rest =>
      r :: filter (fun r' => negb (String.eqb (row_name r') (row_name r)))
             (unique_rows rest)
  end.

Lemma unique_rows_NoDup (rows : list row) :
  NoDup (map row_name (unique_rows rows)).
Proof.
  induction rows as [|r rest IH]; simpl; constructor.
  - intro Hin. apply in_map_iff in Hin. destruct Hin as [r' [Hn Hf]].
    apply filter_In in Hf. destruct Hf as [_ Hne].
    rewrite Hn, String.eqb_refl in Hne. discriminate.
  - induction (unique_rows rest) as [|a l IHl]; simpl; [constructor|].
    inversion IH; subst.
    destruct (negb (String.eqb (row_name a) (row_name r))); simpl; auto.
    constructor; auto.
    intro Hin. apply in_map_iff in Hin. destruct Hin as [r' [Hn Hf]].
    apply filter_In in Hf. destruct Hf as [Hf _].
    apply H1. rewrite <- Hn. now apply in_map.
Qed.

#[global] Instance sqlite3 : Sqlite3 t := {
  connect := call (fun d => (None, d));
  execute st := call (run_statement st);
  commit := call (fun d => (None, d));
  close := call (fun d => (None, d));
  fetchall_items d := unique_rows (tbl_items d);
  fetchone_threshold d := tbl_threshold d;
  fetchall_items_unique d := unique_rows_NoDup (tbl_items d)
}.

(** A fresh database file, and one whose next calls raise as scripted. *)
Definition empty : t :=
  {| tbl_items := []; tbl_threshold := None; faults := [] |}.

Definition with_faults (fs : list (option exn)) (d : t) : t :=
  {| tbl_items := tbl_items d; tbl_threshold := tbl_threshold d;
     faults := fs |}.

End MemDb.

(** ** Concrete runs *)

Module Examples.

(** A manager over a fresh database (threshold 10, no items). *)
Definition fresh : world := snd (new_InventoryManager MemDb.empty).

(** ... after [add_item("bolt", 5, 0.125)]: one low-stock item. *)
Definition with_bolt : world := snd (add_item "bolt" 5 0.125%float fresh).

(** ... after [add_item("nut", 5, 0.5)] and [add_item("axle", 5, 2.0)] as
    well: three items with the same quantity. *)
Definition with_nut : world := snd (add_item "nut" 5 0.5%float with_bolt).

Definition with_three : world := snd (add_item "axle" 5 2%float with_nut).

(** [with_bolt] over a store that accepts the connection and raises on
    the statement that follows. *)
Definition statement_fails : world :=
  (fst with_bolt,
   MemDb.with_faults [None; Some OperationalError] (snd with_bolt)).

(** [with_bolt] over a store that refuses the connection. *)
Definition connect_fails : world :=
  (fst with_bolt, MemDb.with_faults [Some OperationalError] (snd with_bolt)).

(** [with_bolt] after [update_item("bolt", quantity=20)], and then after
    [set_threshold(25)]. *)
Definition bolt_refilled : world :=
  snd (update_item "bolt" (Some 20) None with_bolt).

Definition bolt_refilled_25 : world := snd (set_threshold 25 bolt_refilled).

(** [with_three] after [delete_item("nut")], and after
    [update_item("nut", quantity=30)]. *)
Definition nut_deleted : world := snd (delete_item "nut" with_three).

Definition nut_updated : world :=
  snd (update_item "nut" (Some 30) None with_three).

(** A manager that holds no item over a store whose table has ["bolt"]. *)
Definition store_has_bolt : world := (fst fresh, snd with_bolt).

(** A manager with one item that is not low on stock, over a store that
    refuses the connection. *)
Definition with_axle : world := snd (add_item "axle" 20 2%float fresh).

Definition axle_connect_fails : world :=
  (fst with_axle, MemDb.with_faults [Some OperationalError] (snd with_axle)).

(** The outcome of [update_item("bolt", quantity=30)] on [with_bolt]. *)
Definition bolt_updated : result (bool * string) * world :=
  update_item "bolt" (Some 30) None with_bolt.

(** [with_axle] over a store that accepts the connection and raises on
    the statement that follows, and the state the aborted
    [update_item("axle", quantity=3)] leaves. *)
Definition axle_statement_fails : world :=
  (fst with_axle,
   MemDb.with_faults [None; Some OperationalError] (snd with_axle)).

Definition axle_update_aborted : world :=
  snd (update_item "axle" (Some 3) None axle_statement_fails).

(** The state the aborted [set_threshold(25)] leaves on
    [axle_connect_fails], and the state after
    [add_item("x", 50, 1.0)] has then returned. *)
Definition axle_threshold_aborted : world :=
  snd (set_threshold 25 axle_connect_fails).

Definition axle_then_x : world :=
  snd (add_item "x" 50 1%float axle_threshold_aborted).

(** Items ["a"] (quantity 5) and ["b"] (quantity 7) over a store that
    accepts the connection and raises on the statement that follows, and
    the state the aborted [update_item("a", quantity=9)] leaves. *)
Definition with_a : world := snd (add_item "a" 5 1%float fresh).

Definition with_a_b : world := snd (add_item "b" 7 1%float with_a).

Definition a_statement_fails : world :=
  (fst with_a_b,
   MemDb.with_faults [None; Some OperationalError] (snd with_a_b)).

Definition a_update_aborted : world :=
  snd (update_item "a" (Some 9) None a_statement_fails).

(** A manager whose heap holds an entry older than the item: the item
    has quantity 5, the entry says 3. *)
Definition stale : InventoryManager :=
  {| items := [("a", {| quantity := 5; price := 0.5%float |})];
     low_stock_heap := [(3, "a")];
     threshold := 10 |}.

End Examples.

(** ** Predicates the theorems are stated with *)

(** The heap invariant of the [heapq] documentation:
    [heap[k] <= heap[2*k+1]] and [heap[k] <= heap[2*k+2]] for all [k],
    wherever the right-hand index exists. *)
Definition is_heap (h : list entry) : Prop :=
  forall k : nat,
    ((2 * k + 1 < length h)%nat ->
       entry_le (item_at h k) (item_at h (2 * k + 1))) /\
    ((2 * k + 2 < length h)%nat ->
       entry_le (item_at h k) (item_at h (2 * k + 2))).

(** Equality of entries, and 1 or 0 as [a] is [y] or not: for counting
    occurrences across an assignment [l[i] = x]. *)
Definition entry_eq_dec (a b : entry) : {a = b} + {a <> b}.
Proof. decide equality; [apply String.string_dec | apply Z.eq_dec]. Defined.

Definition hit (a y : entry) : nat := if entry_eq_dec a y then 1 else 0.

(** The index of the parent, as [_siftdown] computes it. *)
Definition parent (i : nat) : nat := Nat.shiftr (i - 1) 1.

(** The invariant below index [k]: every position whose parent is at
    [k] or later is no smaller than its parent. [heapify] establishes it
    for [k = n/2 - 1, ..., 0]. *)
Definition heap_above (k : nat) (h : list entry) : Prop :=
  forall i : nat,
    (0 < i < length h)%nat -> (k <= parent i)%nat ->
    entry_le (item_at h (parent i)) (item_at h i).

(** The positions of the subtree rooted at [k]. *)
Inductive desc (k : nat) : nat -> Prop :=
| desc_root : desc k k
| desc_left p : desc k p -> desc k (2 * p + 1)
| desc_right p : desc k p -> desc k (2 * p + 2).

(** The child [_siftup] moves up: the right one when it exists and the
    left one is not smaller. *)
Definition smaller_child (heap : list entry) (pos : nat) : nat :=
  if ((2 * pos + 1 + 1 <? length heap)%nat &&
      negb (entry_ltb (item_at heap (2 * pos + 1))
              (item_at heap (2 * pos + 1 + 1))))%bool
  then (2 * pos + 1 + 1)%nat else (2 * pos + 1)%nat.

(** The entries in the order in which [heappop] hands them out. *)
Fixpoint pop_order (fuel : nat) (h : list entry) : list entry :=
  match fuel with
  | O => []
  | S fuel' =>
      match heapq.heappop h with
      | None => []
      | Some (e, h') => e :: pop_order fuel' h'
      end
  end.

(** An item is low on stock: [quantity < threshold]. *)
Definition is_low (thr : Z) (kv : string * item) : bool :=
  (quantity (snd kv) <? thr)%Z.

Definition listing_of (kv : string * item) : listing :=
  {| l_name := fst kv;
     l_quantity := quantity (snd kv);
     l_price := price (snd kv) |}.

Definition entry_of (kv : string * item) : entry :=
  (quantity (snd kv), fst kv).

(** The low-stock items of a dictionary, in dictionary order. *)
Definition low_items (d : dict) (thr : Z) : list (string * item) :=
  filter (is_low thr) d.

(** What one popped entry adds to [low_stock] and to [temp_heap]: its
    name is looked up and the live quantity compared to the threshold. *)
Definition live_low (d : dict) (thr : Z) (e : entry)
    : list (string * item) :=
  match dict_get d (snd e) with
  | Some it => if (quantity it <? thr)%Z then [(snd e, it)] else []
  | None => []
  end.

(** Validity of an entry in the words of the specification: the name is
    present, the entry's quantity is the live quantity, and the live
    quantity is below the threshold. *)
Definition valid_per_spec (d : dict) (thr : Z) (e : entry) : bool :=
  match dict_get d (snd e) with
  | Some it => (quantity it =? fst e)%Z && (quantity it <? thr)%Z
  | None => false
  end.

(** What a successful [add_item] (and one round of [load_items]) does
    to the manager. *)
Definition stored (name : string) (q : Z) (p : float)
    (self : InventoryManager) : InventoryManager :=
  let self :=
    set_items
      (fun d => dict_setitem d name {| quantity := q; price := p |}) self in
  if (q <? threshold self)%Z
  then set_low_stock_heap (fun h => heapq.heappush h (q, name)) self
  else self.

(** The assignments of [update_item] to the inner dictionary. *)
Definition assign_fields (name : string) (q : option Z) (p : option float)
    (d : dict) : dict :=
  let d := match q with
           | Some q => dict_modify d name (with_quantity q)
           | None => d
           end in
  match p with
  | Some p => dict_modify d name (with_price p)
  | None => d
  end.

(** The heap has just been rebuilt from the dictionary. *)
Definition rebuilt (self : InventoryManager) : Prop :=
  low_stock_heap self =
  fold_left (rebuild_step (threshold self)) (items self) [].

(** The order of a listing: quantity, then name. *)
Definition listing_key (l : listing) : entry := (l_quantity l, l_name l).

Definition str_le (a b : string) : Prop := a = b \/ String_as_OT.lt a b.

Definition listing_le (a b : listing) : Prop :=
  (l_quantity a < l_quantity b)%Z \/
  (l_quantity a = l_quantity b /\ str_le (l_name a) (l_name b)).

(** The state of a manager whose heap is in step with its dictionary:
    names are unique, the heap is a heap, and its entries are the
    low-stock items, each once with its live quantity. *)
Definition in_step (self : InventoryManager) : Prop :=
  NoDup (dict_keys (items self)) /\
  is_heap (low_stock_heap self) /\
  Permutation (low_stock_heap self)
    (map entry_of (low_items (items self) (threshold self))).

(** The row [(name, quantity, price)] as [load_items] stores it. *)
Definition row_item (r : string * Z * float) : string * item :=
  (fst (fst r), {| quantity := snd (fst r); price := snd r |}).

(** A listing after [update_item(name, q, p)]: the listing of [name]
    takes the fields given, every other listing stays. *)
Definition updated_listing (name : string) (q : option Z) (p : option float)
    (l : listing) : listing :=
  if String.eqb (l_name l) name
  then {| l_name := l_name l;
          l_quantity := match q with Some v => v | None => l_quantity l end;
          l_price := match p with Some v => v | None => l_price l end |}
  else l.

(** [needle] occurs in [hay]: [hay] is [pre + needle + post]. *)
Definition occurs_in (needle hay : string) : Prop :=
  exists pre post, hay = String.append pre (String.append needle post).

(** Every entry of [l] is the live entry of a low-stock item. *)
Definition all_live (d : dict) (thr : Z) (l : list entry) : Prop :=
  forall e, In e l ->
    exists it, dict_get d (snd e) = Some it /\ quantity it = fst e /\
               (quantity it <? thr)%Z = true.

(** * Facts *)

(** ** The order on entries *)

Section EntryOrder.

Lemma str_ltb_lt (a b : string) :
  str_ltb a b = true <-> String_as_OT.lt a b.
Proof.
  unfold str_ltb, String_as_OT.lt.
  destruct (String_as_OT.compare a b); split; congruence.
Qed.

Lemma str_lt_trichotomy (a b : string) :
  String_as_OT.lt a b \/ a = b \/ String_as_OT.lt b a.
Proof.
  destruct (String_as_OT.compare_spec a b); auto.
Qed.

Lemma str_lt_irrefl (a : string) : ~ String_as_OT.lt a a.
Proof. apply (StrictOrder_Irreflexive (R := String_as_OT.lt)). Qed.

Lemma str_lt_trans (a b c : string) :
  String_as_OT.lt a b -> String_as_OT.lt b c -> String_as_OT.lt a c.
Proof. apply (StrictOrder_Transitive (R := String_as_OT.lt)). Qed.

Lemma entry_ltb_spec (a b : entry) :
  entry_ltb a b = true <->
  (fst a < fst b)%Z \/ (fst a = fst b /\ String_as_OT.lt (snd a) (snd b)).
Proof.
  unfold entry_ltb.
  rewrite orb_true_iff, andb_true_iff, Z.ltb_lt, Z.eqb_eq, str_ltb_lt.
  tauto.
Qed.

Lemma str_lt_asym (a b : string) :
  String_as_OT.lt a b -> String_as_OT.lt b a -> False.
Proof.
  intros Hab Hba. exact (str_lt_irrefl a (str_lt_trans a b a Hab Hba)).
Qed.

Lemma entry_le_spec (a b : entry) :
  entry_le a b <->
  (fst a < fst b)%Z \/
  (fst a = fst b /\ (snd a = snd b \/ String_as_OT.lt (snd a) (snd b))).
Proof.
  unfold entry_le. rewrite <- not_true_iff_false, entry_ltb_spec.
  destruct a as [qa na], b as [qb nb]; simpl.
  pose proof (str_lt_irrefl na) as Hirr.
  pose proof (str_lt_asym na nb) as Hasym.
  destruct (str_lt_trichotomy na nb) as [Hlt | [Heq | Hgt]];
    destruct (Z.lt_trichotomy qa qb) as [Hz | [Hz | Hz]];
    subst; split; intros; try lia; try tauto;
    intuition (try lia; try congruence).
Qed.

Lemma entry_le_refl (a : entry) : entry_le a a.
Proof. apply entry_le_spec. right. auto. Qed.

Lemma entry_le_trans (a b c : entry) :
  entry_le a b -> entry_le b c -> entry_le a c.
Proof.
  rewrite !entry_le_spec.
  intros [Hab | [Hab Hsab]] [Hbc | [Hbc Hsbc]]; try (left; lia).
  right. split; [lia|].
  destruct Hsab as [Hsab | Hsab], Hsbc as [Hsbc | Hsbc];
    try (left; congruence); right.
  - now rewrite Hsab.
  - now rewrite <- Hsbc.
  - eapply str_lt_trans; eauto.
Qed.

Lemma entry_le_total (a b : entry) : entry_le a b \/ entry_le b a.
Proof.
  rewrite !entry_le_spec.
  destruct (Z.lt_trichotomy (fst a) (fst b)) as [Hz | [Hz | Hz]];
    destruct (str_lt_trichotomy (snd a) (snd b)) as [Hs | [Hs | Hs]];
    auto 6.
Qed.

Lemma entry_le_antisym (a b : entry) :
  entry_le a b -> entry_le b a -> a = b.
Proof.
  rewrite !entry_le_spec. destruct a as [qa na], b as [qb nb]; simpl.
  intros [Hab | [Hab Hsab]] [Hba | [Hba Hsba]]; try lia.
  subst. f_equal.
  destruct Hsab as [? | Hsab]; auto.
  destruct Hsba as [? | Hsba]; auto.
  destruct (str_lt_asym _ _ Hsab Hsba).
Qed.

(** [a < b] gives [a <= b]. *)
Lemma entry_ltb_true_le (a b : entry) :
  entry_ltb a b = true -> entry_le a b.
Proof.
  intro Hlt. destruct (entry_le_total a b) as [|Hba]; auto.
  unfold entry_le in Hba. congruence.
Qed.

End EntryOrder.

(** ** Lists by index *)

Section ListsByIndex.

Lemma list_set_length {A : Type} (l : list A) (i : nat) (x : A) :
  length (list_set l i x) = length l.
Proof.
  revert i; induction l as [|a l IH]; intros [|i]; simpl; auto.
Qed.

Lemma item_at_list_set_eq (l : list entry) (i : nat) (x : entry) :
  (i < length l)%nat -> item_at (list_set l i x) i = x.
Proof.
  unfold item_at. revert i; induction l as [|a l IH]; intros [|i] Hi;
    simpl in *; try lia; auto.
  apply IH. lia.
Qed.

Lemma item_at_list_set_neq (l : list entry) (i j : nat) (x : entry) :
  i <> j -> item_at (list_set l i x) j = item_at l j.
Proof.
  unfold item_at. revert i j; induction l as [|a l IH]; intros [|i] [|j] Hij;
    simpl; auto; try congruence.
Qed.

Lemma item_at_self (l : list entry) (i : nat) :
  list_set l i (item_at l i) = l.
Proof.
  unfold item_at. revert i; induction l as [|a l IH]; intros [|i]; simpl;
    auto. now rewrite IH.
Qed.

(** Counting occurrences across an assignment [l[i] = x]. *)
Lemma count_list_set (l : list entry) (i : nat) (x y : entry) :
  (i < length l)%nat ->
  (count_occ entry_eq_dec (list_set l i x) y + hit (item_at l i) y =
   count_occ entry_eq_dec l y + hit x y)%nat.
Proof.
  unfold item_at, hit. revert i; induction l as [|a l IH]; intros [|i] Hi;
    simpl in *; try lia.
  - destruct (entry_eq_dec x y), (entry_eq_dec a y); lia.
  - specialize (IH i ltac:(lia)).
    destruct (entry_eq_dec a y); lia.
Qed.

Lemma In_item_at (l : list entry) (x : entry) :
  In x l -> exists i, (i < length l)%nat /\ item_at l i = x.
Proof. intro Hin. unfold item_at. now apply In_nth. Qed.

End ListsByIndex.

(** ** Parents and children *)

Section Positions.

Lemma parent_left (p : nat) : parent (2 * p + 1) = p.
Proof.
  unfold parent. replace (2 * p + 1 - 1)%nat with (2 * p)%nat by lia.
  change (Nat.shiftr (2 * p) 1) with (Nat.div2 (2 * p)).
  apply Nat.div2_double.
Qed.

Lemma parent_right (p : nat) : parent (2 * p + 2) = p.
Proof.
  unfold parent. replace (2 * p + 2 - 1)%nat with (S (2 * p)) by lia.
  change (Nat.shiftr (S (2 * p)) 1) with (Nat.div2 (S (2 * p))).
  apply Nat.div2_succ_double.
Qed.

Lemma parent_child (i : nat) :
  (0 < i)%nat -> i = (2 * parent i + 1)%nat \/ i = (2 * parent i + 2)%nat.
Proof.
  intro Hi. unfold parent.
  change (Nat.shiftr (i - 1) 1) with (Nat.div2 (i - 1)).
  pose proof (Nat.div2_odd (i - 1)) as Hd.
  destruct (Nat.odd (i - 1)); simpl in Hd; lia.
Qed.

Lemma parent_lt (i : nat) : (0 < i)%nat -> (parent i < i)%nat.
Proof. intro Hi. destruct (parent_child i Hi); lia. Qed.

Lemma child_parent (p c : nat) :
  (0 < c)%nat -> parent c = p ->
  c = (2 * p + 1)%nat \/ c = (2 * p + 2)%nat.
Proof. intros Hc <-. now apply parent_child. Qed.

Lemma desc_le (k p : nat) : desc k p -> (k <= p)%nat.
Proof. induction 1; lia. Qed.

Lemma desc_parent (k p : nat) : desc k p -> p <> k -> desc k (parent p).
Proof.
  intros Hd Hne. destruct Hd as [|q Hq|q Hq]; try congruence.
  - now rewrite parent_left.
  - now rewrite parent_right.
Qed.

Lemma desc_zero (p : nat) : desc 0 p.
Proof.
  induction p as [p IH] using (well_founded_induction Nat.lt_wf_0).
  destruct p as [|p]; [constructor|].
  destruct (parent_child (S p) ltac:(lia)) as [Hc | Hc];
    rewrite Hc; constructor; apply IH; apply parent_lt; lia.
Qed.

Lemma is_heap_heap_above (h : list entry) : is_heap h <-> heap_above 0 h.
Proof.
  split.
  - intros Hh i Hi _. destruct (Hh (parent i)) as [Hl Hr].
    destruct (parent_child i ltac:(lia)) as [Hc | Hc].
    + rewrite Hc at 2. apply Hl. lia.
    + rewrite Hc at 2. apply Hr. lia.
  - intros Hh k. split; intro Hk.
    + specialize (Hh (2 * k + 1)%nat ltac:(lia)).
      rewrite parent_left in Hh. apply Hh. lia.
    + specialize (Hh (2 * k + 2)%nat ltac:(lia)).
      rewrite parent_right in Hh. apply Hh. lia.
Qed.

End Positions.

(** ** [heapq] keeps the entries *)

Section HeapqEntries.

Import heapq.

Lemma count_swap (l : list entry) (i j : nat) (x y : entry) :
  i <> j -> (i < length l)%nat -> (j < length l)%nat ->
  count_occ entry_eq_dec (list_set (list_set l i (item_at l j)) j x) y =
  count_occ entry_eq_dec (list_set l i x) y.
Proof.
  intros Hij Hi Hj.
  pose proof (count_list_set (list_set l i (item_at l j)) j x y) as E1.
  rewrite list_set_length, item_at_list_set_neq in E1 by auto.
  specialize (E1 Hj).
  pose proof (count_list_set l i (item_at l j) y Hi) as E2.
  pose proof (count_list_set l i x y Hi) as E3.
  lia.
Qed.

Lemma _siftdown_loop_length (fuel : nat) :
  forall heap startpos pos x,
    length (_siftdown_loop fuel heap startpos pos x) = length heap.
Proof.
  induction fuel as [|fuel IH]; intros heap startpos pos x; simpl.
  - apply list_set_length.
  - destruct (startpos <? pos)%nat; [|apply list_set_length].
    destruct (entry_ltb x _); [|apply list_set_length].
    rewrite IH. apply list_set_length.
Qed.

Lemma _siftdown_loop_count (fuel : nat) :
  forall heap startpos pos x y,
    (pos < length heap)%nat ->
    count_occ entry_eq_dec (_siftdown_loop fuel heap startpos pos x) y =
    count_occ entry_eq_dec (list_set heap pos x) y.
Proof.
  induction fuel as [|fuel IH]; intros heap startpos pos x y Hpos; simpl;
    auto.
  destruct (startpos <? pos)%nat eqn:Hlt; auto.
  apply Nat.ltb_lt in Hlt.
  destruct (entry_ltb x _); auto.
  change (Nat.div2 (pos - 1)) with (parent pos).
  pose proof (parent_lt pos ltac:(lia)) as Hp.
  rewrite IH by (rewrite list_set_length; lia).
  apply count_swap; lia.
Qed.

Lemma _siftdown_length (heap : list entry) (startpos pos : nat) :
  length (_siftdown heap startpos pos) = length heap.
Proof. apply _siftdown_loop_length. Qed.

Lemma _siftdown_count (heap : list entry) (startpos pos : nat) (y : entry) :
  (pos < length heap)%nat ->
  count_occ entry_eq_dec (_siftdown heap startpos pos) y =
  count_occ entry_eq_dec heap y.
Proof.
  intro Hpos. unfold _siftdown.
  rewrite _siftdown_loop_count by auto. now rewrite item_at_self.
Qed.

Lemma _siftup_loop_S (fuel : nat) (heap : list entry) (pos : nat) :
  _siftup_loop (S fuel) heap (length heap) pos =
  if (2 * pos + 1 <? length heap)%nat
  then _siftup_loop fuel
         (list_set heap pos (item_at heap (smaller_child heap pos)))
         (length heap) (smaller_child heap pos)
  else (heap, pos).
Proof. reflexivity. Qed.

Lemma smaller_child_range (heap : list entry) (pos : nat) :
  (2 * pos + 1 < length heap)%nat ->
  (smaller_child heap pos < length heap)%nat /\
  (smaller_child heap pos = 2 * pos + 1 \/
   smaller_child heap pos = 2 * pos + 2)%nat.
Proof.
  intro Hc. unfold smaller_child.
  destruct (2 * pos + 1 + 1 <? length heap)%nat eqn:Hr; simpl.
  - apply Nat.ltb_lt in Hr. destruct (negb _); lia.
  - lia.
Qed.

Lemma _siftup_loop_count (fuel : nat) :
  forall heap pos x,
    (pos < length heap)%nat ->
    length (fst (_siftup_loop fuel heap (length heap) pos)) = length heap /\
    (snd (_siftup_loop fuel heap (length heap) pos) < length heap)%nat /\
    forall y,
      count_occ entry_eq_dec
        (list_set (fst (_siftup_loop fuel heap (length heap) pos))
           (snd (_siftup_loop fuel heap (length heap) pos)) x) y =
      count_occ entry_eq_dec (list_set heap pos x) y.
Proof.
  induction fuel as [|fuel IH]; intros heap pos x Hpos; [simpl; auto|].
  rewrite _siftup_loop_S.
  destruct (2 * pos + 1 <? length heap)%nat eqn:Hc; [|simpl; auto].
  apply Nat.ltb_lt in Hc.
  destruct (smaller_child_range heap pos Hc) as [Hcn Hcp].
  set (c := smaller_child heap pos) in *.
  specialize (IH (list_set heap pos (item_at heap c)) c x).
  rewrite list_set_length in IH. specialize (IH Hcn).
  destruct IH as [IH1 [IH2 IH3]]. repeat split; auto.
  intro y. rewrite IH3. apply count_swap; auto. lia.
Qed.

(** The loops run to their end: more fuel changes nothing in
    [_siftdown], and [_siftup] stops at a leaf. *)
Lemma _siftdown_loop_fuel (fuel : nat) :
  forall fuel' heap startpos pos x,
    (pos <= fuel)%nat -> (pos <= fuel')%nat ->
    _siftdown_loop fuel heap startpos pos x =
    _siftdown_loop fuel' heap startpos pos x.
Proof.
  induction fuel as [|fuel IH]; intros [|fuel'] heap startpos pos x Hf Hf';
    auto.
  - replace pos with 0%nat by lia. cbn [_siftdown_loop].
    now replace (startpos <? 0)%nat with false
      by (symmetry; apply Nat.ltb_ge; lia).
  - replace pos with 0%nat by lia. cbn [_siftdown_loop].
    now replace (startpos <? 0)%nat with false
      by (symmetry; apply Nat.ltb_ge; lia).
  - cbn [_siftdown_loop].
    destruct (startpos <? pos)%nat eqn:Hlt; auto.
    apply Nat.ltb_lt in Hlt.
    destruct (entry_ltb x _); auto.
    pose proof (parent_lt pos ltac:(lia)) as Hp. unfold parent in Hp.
    apply IH; lia.
Qed.

Lemma _siftup_loop_ends (fuel : nat) :
  forall heap pos,
    (pos < length heap)%nat -> (length heap <= fuel + pos)%nat ->
    (length heap <=
       2 * snd (_siftup_loop fuel heap (length heap) pos) + 1)%nat.
Proof.
  induction fuel as [|fuel IH]; intros heap pos Hpos Hfuel; [simpl in *; lia|].
  rewrite _siftup_loop_S.
  destruct (2 * pos + 1 <? length heap)%nat eqn:Hc;
    [apply Nat.ltb_lt in Hc | apply Nat.ltb_ge in Hc; exact Hc].
  destruct (smaller_child_range heap pos Hc) as [Hcn Hcp].
  specialize (IH (list_set heap pos (item_at heap (smaller_child heap pos)))
                (smaller_child heap pos)).
  rewrite list_set_length in IH. apply IH; lia.
Qed.

Lemma _siftup_length (heap : list entry) (pos : nat) :
  (pos < length heap)%nat -> length (_siftup heap pos) = length heap.
Proof.
  intro Hpos. unfold _siftup.
  destruct (_siftup_loop_count (length heap) heap pos (item_at heap pos) Hpos)
    as [H1 [H2 _]].
  destruct (_siftup_loop _ _ _ _) as [h1 p1]; simpl in *.
  now rewrite _siftdown_length, list_set_length.
Qed.

Lemma _siftup_count (heap : list entry) (pos : nat) (y : entry) :
  (pos < length heap)%nat ->
  count_occ entry_eq_dec (_siftup heap pos) y =
  count_occ entry_eq_dec heap y.
Proof.
  intro Hpos. unfold _siftup.
  destruct (_siftup_loop_count (length heap) heap pos (item_at heap pos) Hpos)
    as [H1 [H2 H3]].
  destruct (_siftup_loop _ _ _ _) as [h1 p1]; simpl in *.
  rewrite _siftdown_count by (rewrite list_set_length; lia).
  now rewrite H3, item_at_self.
Qed.

Lemma _siftup_Permutation (heap : list entry) (pos : nat) :
  (pos < length heap)%nat -> Permutation (_siftup heap pos) heap.
Proof.
  intro Hpos. apply (Permutation_count_occ entry_eq_dec).
  intro y. now apply _siftup_count.
Qed.

Lemma heappush_Permutation (heap : list entry) (item : entry) :
  Permutation (heappush heap item) (item :: heap).
Proof.
  unfold heappush.
  transitivity (heap ++ [item]).
  - apply (Permutation_count_occ entry_eq_dec). intro y.
    apply _siftdown_count. rewrite length_app. simpl. lia.
  - symmetry. apply Permutation_cons_append.
Qed.

Lemma heappop_None (heap : list entry) :
  heappop heap = None <-> heap = [].
Proof.
  unfold heappop. destruct heap as [|a t]; [tauto|].
  destruct (removelast (a :: t)); split; discriminate.
Qed.

Lemma heappop_Permutation (heap : list entry) (x : entry)
    (heap' : list entry) :
  heappop heap = Some (x, heap') -> Permutation heap (x :: heap').
Proof.
  unfold heappop. destruct heap as [|a t]; [discriminate|].
  pose proof (@app_removelast_last _ (a :: t) no_entry ltac:(discriminate))
    as Hsplit.
  destruct (removelast (a :: t)) as [|r rest] eqn:Hr; intro Hpop;
    inversion Hpop; subst; clear Hpop.
  - rewrite Hsplit. simpl. reflexivity.
  - rewrite Hsplit at 1. simpl.
    constructor.
    transitivity (last (a :: t) no_entry :: rest).
    + symmetry. apply Permutation_cons_append.
    + symmetry.
      apply (_siftup_Permutation (last (a :: t) no_entry :: rest) 0).
      simpl. lia.
Qed.

Lemma heapify_loop_Permutation (k : nat) :
  forall x, (k <= length x)%nat -> Permutation (heapify_loop k x) x.
Proof.
  induction k as [|i IH]; intros x Hk; simpl; [reflexivity|].
  rewrite IH by (rewrite _siftup_length; lia).
  apply _siftup_Permutation. lia.
Qed.

Lemma half_le (n : nat) : (n / 2 <= n)%nat.
Proof. pose proof (Nat.div_mod_eq n 2). lia. Qed.

Lemma heapify_Permutation (x : list entry) : Permutation (heapify x) x.
Proof. apply heapify_loop_Permutation, half_le. Qed.

End HeapqEntries.

(** ** [heapq] keeps the heap invariant *)

Section HeapqInvariant.

Import heapq.

Lemma _siftdown_loop_S (fuel : nat) (heap : list entry)
    (startpos pos : nat) (x : entry) :
  _siftdown_loop (S fuel) heap startpos pos x =
  if (startpos <? pos)%nat then
    if entry_ltb x (item_at heap (parent pos))
    then _siftdown_loop fuel (list_set heap pos (item_at heap (parent pos)))
           startpos (parent pos) x
    else list_set heap pos x
  else list_set heap pos x.
Proof. reflexivity. Qed.

Lemma heap_above_mono (k k' : nat) (h : list entry) :
  (k <= k')%nat -> heap_above k h -> heap_above k' h.
Proof. intros Hk Hh i Hi Hp. apply Hh; lia. Qed.

(** Writing [x] into the hole at [pos] closes the heap when all other
    positions are in order, [x] is no larger than the children of [pos]
    and no smaller than its parent. *)
Lemma close_hole (k : nat) (heap : list entry) (pos : nat) (x : entry) :
  (pos < length heap)%nat ->
  (forall i, (0 < i < length heap)%nat -> (k <= parent i)%nat -> i <> pos ->
     entry_le (item_at heap (parent i)) (item_at heap i)) ->
  (forall c, (0 < c < length heap)%nat -> parent c = pos ->
     entry_le x (item_at heap c)) ->
  (pos <= k)%nat \/ entry_le (item_at heap (parent pos)) x ->
  heap_above k (list_set heap pos x).
Proof.
  intros Hpos HA HB Hup i Hi Hpar. rewrite list_set_length in Hi.
  pose proof (parent_lt i ltac:(lia)) as Hlt.
  destruct (Nat.eq_dec i pos) as [-> | Hne].
  - rewrite item_at_list_set_eq by lia.
    rewrite item_at_list_set_neq by lia.
    destruct Hup as [Hup | Hup]; [lia | exact Hup].
  - rewrite (item_at_list_set_neq _ pos i) by auto.
    destruct (Nat.eq_dec (parent i) pos) as [Hp | Hp].
    + rewrite Hp, item_at_list_set_eq by lia. apply HB; auto.
    + rewrite item_at_list_set_neq by auto. apply HA; auto.
Qed.

Lemma _siftdown_loop_heap (k fuel : nat) :
  forall heap pos x,
    (pos <= fuel)%nat -> desc k pos -> (pos < length heap)%nat ->
    (forall i, (0 < i < length heap)%nat -> (k <= parent i)%nat -> i <> pos ->
       entry_le (item_at heap (parent i)) (item_at heap i)) ->
    (forall c, (0 < c < length heap)%nat -> parent c = pos ->
       entry_le x (item_at heap c)) ->
    (pos <> k -> forall c, (0 < c < length heap)%nat -> parent c = pos ->
       entry_le (item_at heap (parent pos)) (item_at heap c)) ->
    heap_above k (_siftdown_loop fuel heap k pos x).
Proof.
  induction fuel as [|fuel IH]; intros heap pos x Hfuel Hd Hpos HA HB HC.
  - simpl. apply close_hole; auto. left. lia.
  - rewrite _siftdown_loop_S.
    pose proof (desc_le _ _ Hd) as Hkp.
    destruct (k <? pos)%nat eqn:Hlt;
      [apply Nat.ltb_lt in Hlt | apply close_hole; auto; left;
                                 apply Nat.ltb_ge in Hlt; lia].
    pose proof (parent_lt pos ltac:(lia)) as Hpp.
    assert (Hdp : desc k (parent pos)) by (apply desc_parent; auto; lia).
    pose proof (desc_le _ _ Hdp) as Hkpp.
    destruct (entry_ltb x (item_at heap (parent pos))) eqn:Hcmp;
      [|apply close_hole; auto].
    apply entry_ltb_true_le in Hcmp.
    apply IH; try rewrite list_set_length; auto; try lia.
    + (* the other positions *)
      intros i Hi Hpar Hne.
      pose proof (parent_lt i ltac:(lia)) as Hlti.
      destruct (Nat.eq_dec i pos) as [-> | Hnp].
      * rewrite item_at_list_set_eq by lia.
        rewrite item_at_list_set_neq by lia. apply entry_le_refl.
      * rewrite (item_at_list_set_neq _ pos i) by auto.
        destruct (Nat.eq_dec (parent i) pos) as [Hp | Hp].
        -- rewrite Hp, item_at_list_set_eq by lia.
           apply HC; auto. lia.
        -- rewrite item_at_list_set_neq by auto. apply HA; auto.
    + (* the children of the new hole *)
      intros c Hc Hpc.
      destruct (Nat.eq_dec c pos) as [-> | Hnp].
      * now rewrite item_at_list_set_eq by lia.
      * rewrite item_at_list_set_neq by auto.
        apply entry_le_trans with (item_at heap (parent pos)); auto.
        rewrite <- Hpc. apply HA; auto. lia.
    + (* the grandchildren *)
      intros Hnk c Hc Hpc.
      pose proof (parent_lt (parent pos) ltac:(lia)) as Hppp.
      assert (Hdpp : desc k (parent (parent pos)))
        by (apply desc_parent; auto).
      pose proof (desc_le _ _ Hdpp) as Hkppp.
      rewrite (item_at_list_set_neq _ pos (parent (parent pos))) by lia.
      assert (Hgp : entry_le (item_at heap (parent (parent pos)))
                      (item_at heap (parent pos)))
        by (apply HA; lia).
      destruct (Nat.eq_dec c pos) as [-> | Hnp].
      * now rewrite item_at_list_set_eq by lia.
      * rewrite item_at_list_set_neq by auto.
        apply entry_le_trans with (item_at heap (parent pos)); auto.
        rewrite <- Hpc. apply HA; auto. lia.
Qed.

(** After the first loop of [_siftup] the hole sits at a leaf below [k]
    and every other position is in order. *)
Lemma _siftup_loop_heap (k fuel : nat) :
  forall heap pos,
    (length heap <= fuel + pos)%nat -> desc k pos ->
    (pos < length heap)%nat ->
    heap_above (S k) heap ->
    (pos <> k -> heap_above k heap) ->
    let r := _siftup_loop fuel heap (length heap) pos in
    length (fst r) = length heap /\
    (snd r < length heap)%nat /\
    desc k (snd r) /\
    (length heap <= 2 * snd r + 1)%nat /\
    heap_above (S k) (fst r) /\
    (snd r <> k -> heap_above k (fst r)).
Proof.
  induction fuel as [|fuel IH]; intros heap pos Hfuel Hd Hpos HS Hk.
  - simpl in *. lia.
  - rewrite _siftup_loop_S.
    destruct (2 * pos + 1 <? length heap)%nat eqn:Hc;
      [apply Nat.ltb_lt in Hc
      | apply Nat.ltb_ge in Hc; simpl; repeat split; auto].
    destruct (smaller_child_range heap pos Hc) as [Hcn Hcp].
    pose proof (desc_le _ _ Hd) as Hkp.
    assert (Hmin : forall i, (0 < i < length heap)%nat -> parent i = pos ->
              entry_le (item_at heap (smaller_child heap pos))
                (item_at heap i)).
    { intros i Hi Hp. unfold smaller_child.
      destruct (2 * pos + 1 + 1 <? length heap)%nat eqn:Hr;
        destruct (entry_ltb (item_at heap (2 * pos + 1))
                    (item_at heap (2 * pos + 1 + 1))) eqn:Hcmp;
        cbn [andb negb];
        destruct (child_parent pos i ltac:(lia) Hp) as [-> | ->];
        try apply entry_le_refl;
        try (apply Nat.ltb_ge in Hr; lia);
        replace (2 * pos + 2)%nat with (2 * pos + 1 + 1)%nat by lia;
        try apply entry_le_refl.
      - now apply entry_ltb_true_le.
      - exact Hcmp. }
    set (c := smaller_child heap pos) in *.
    assert (Hdc : desc k c)
      by (destruct Hcp as [-> | ->]; constructor; auto).
    assert (Hpc : parent c = pos)
      by (destruct Hcp as [-> | ->];
          [apply parent_left | apply parent_right]).
    assert (Hnew : heap_above k (list_set heap pos (item_at heap c))).
    { intros i Hi Hpar. rewrite list_set_length in Hi.
      pose proof (parent_lt i ltac:(lia)) as Hlti.
      destruct (Nat.eq_dec i pos) as [-> | Hnp].
      - rewrite item_at_list_set_eq by lia.
        rewrite item_at_list_set_neq by lia.
        assert (Hpk : pos <> k) by lia.
        apply entry_le_trans with (item_at heap pos).
        + apply (Hk Hpk); auto.
        + rewrite <- Hpc at 1. apply (Hk Hpk); lia.
      - rewrite (item_at_list_set_neq _ pos i) by auto.
        destruct (Nat.eq_dec (parent i) pos) as [Hp | Hp].
        + rewrite Hp, item_at_list_set_eq by lia. apply Hmin; auto.
        + rewrite item_at_list_set_neq by auto.
          destruct (Nat.eq_dec pos k) as [Hpk | Hpk].
          * apply HS; auto. lia.
          * apply (Hk Hpk); auto. }
    specialize (IH (list_set heap pos (item_at heap c)) c).
    rewrite list_set_length in IH.
    apply IH; auto; try lia.
    apply heap_above_mono with k; auto.
Qed.

Lemma _siftup_heap (k : nat) (heap : list entry) :
  (k < length heap)%nat -> heap_above (S k) heap ->
  heap_above k (_siftup heap k).
Proof.
  intros Hk HS. unfold _siftup.
  pose proof (_siftup_loop_heap k (length heap) heap k ltac:(lia)
                (desc_root k) Hk HS ltac:(congruence)) as Hloop.
  destruct (_siftup_loop (length heap) heap (length heap) k) as [h1 p1].
  simpl in Hloop. destruct Hloop as [Hlen [Hp1 [Hd [Hleaf [HS1 Hk1]]]]].
  assert (Hnochild : forall c, (0 < c < length h1)%nat -> parent c <> p1).
  { intros c Hc Hp. destruct (child_parent p1 c ltac:(lia) Hp); lia. }
  unfold _siftdown.
  rewrite item_at_list_set_eq by lia.
  apply _siftdown_loop_heap; auto; try rewrite list_set_length; try lia.
  - intros i Hi Hpar Hne.
    rewrite !item_at_list_set_neq by (auto; apply not_eq_sym, Hnochild; auto).
    destruct (Nat.eq_dec p1 k) as [Hpk | Hpk].
    + apply HS1; auto. specialize (Hnochild i Hi). lia.
    + apply (Hk1 Hpk); auto.
  - intros c Hc Hp. destruct (Hnochild c Hc Hp).
  - intros _ c Hc Hp. destruct (Hnochild c Hc Hp).
Qed.

Lemma is_heap_nil : is_heap [].
Proof. intro k. simpl. split; lia. Qed.

Lemma heappush_heap (heap : list entry) (item : entry) :
  is_heap heap -> is_heap (heappush heap item).
Proof.
  rewrite !is_heap_heap_above. intro Hh. unfold heappush, _siftdown.
  rewrite length_app. simpl length.
  replace (length heap + 1 - 1)%nat with (length heap) by lia.
  assert (Hnochild : forall c, (0 < c < length (heap ++ [item]))%nat ->
                               parent c <> length heap).
  { intros c Hc Hp. rewrite length_app in Hc. simpl in Hc.
    destruct (child_parent _ c ltac:(lia) Hp); lia. }
  apply _siftdown_loop_heap; auto using desc_zero;
    try (rewrite length_app; simpl; lia).
  - intros i Hi _ Hne. rewrite length_app in Hi. simpl in Hi.
    pose proof (parent_lt i ltac:(lia)).
    unfold item_at. rewrite !app_nth1 by lia. apply Hh; lia.
  - intros c Hc Hp. destruct (Hnochild c Hc Hp).
  - intros _ c Hc Hp. destruct (Hnochild c Hc Hp).
Qed.

(** The root of a heap is its smallest entry. *)
Lemma root_min (h : list entry) :
  heap_above 0 h ->
  forall i, (i < length h)%nat -> entry_le (item_at h 0) (item_at h i).
Proof.
  intros Hh i.
  induction i as [i IH] using (well_founded_induction Nat.lt_wf_0).
  intro Hi. destruct i as [|i]; [apply entry_le_refl|].
  pose proof (parent_lt (S i) ltac:(lia)) as Hp.
  apply entry_le_trans with (item_at h (parent (S i))).
  - apply IH; lia.
  - apply Hh; lia.
Qed.

Lemma heappop_heap (heap : list entry) (x : entry) (heap' : list entry) :
  is_heap heap -> heappop heap = Some (x, heap') ->
  is_heap heap' /\ Forall (entry_le x) heap'.
Proof.
  intros Hh Hpop.
  pose proof (heappop_Permutation _ _ _ Hpop) as Hperm.
  rewrite is_heap_heap_above in *.
  assert (Hx : x = item_at heap 0 /\ heap_above 0 heap').
  { unfold heappop in Hpop. destruct heap as [|a t]; [discriminate|].
    pose proof (@app_removelast_last _ (a :: t) no_entry ltac:(discriminate))
      as Hsplit.
    cbv zeta in Hpop.
    remember (last (a :: t) no_entry) as l eqn:Hl.
    remember (a :: t) as h eqn:Hheap.
    destruct (removelast h) as [|r rest] eqn:Hr;
      injection Hpop as Hx Hh'; subst x heap'.
    - split.
      + rewrite Hsplit. reflexivity.
      + intros i Hi. simpl in Hi. lia.
    - split.
      + rewrite Hsplit. reflexivity.
      + apply _siftup_heap; [simpl; lia|].
        intros i Hi Hpar. simpl length in Hi.
        pose proof (parent_lt i ltac:(lia)) as Hlt.
        assert (Hsame : forall j, (0 < j < S (length rest))%nat ->
                  item_at (list_set (r :: rest) 0 l) j = item_at h j).
        { intros j Hj. rewrite Hsplit. unfold item_at.
          rewrite app_nth1 by (simpl; lia).
          destruct j; [lia | reflexivity]. }
        rewrite !Hsame by lia.
        apply Hh; [|lia].
        rewrite Hsplit, length_app. simpl. lia. }
  destruct Hx as [-> Hh']. split; auto.
  apply Forall_forall. intros y Hy.
  assert (Hin : In y heap)
    by (eapply Permutation_in; [symmetry; exact Hperm | now right]).
  apply In_item_at in Hin. destruct Hin as [i [Hi <-]].
  now apply root_min.
Qed.

Lemma heapify_loop_heap (k : nat) :
  forall x, (k <= length x)%nat -> heap_above k x ->
            heap_above 0 (heapify_loop k x).
Proof.
  induction k as [|i IH]; intros x Hk Hx; simpl; auto.
  apply IH.
  - rewrite _siftup_length; lia.
  - apply _siftup_heap; auto.
Qed.

Lemma heapify_heap (x : list entry) : is_heap (heapify x).
Proof.
  rewrite is_heap_heap_above. apply heapify_loop_heap; [apply half_le|].
  intros i Hi Hpar.
  destruct (parent_child i ltac:(lia)) as [Hc | Hc];
    pose proof (Nat.div_mod_eq (length x) 2);
    pose proof (Nat.mod_upper_bound (length x) 2 ltac:(lia)); lia.
Qed.

End HeapqInvariant.

(** ** The order in which a heap is emptied *)

Section PopOrder.

Import heapq.

Lemma heappop_length (h : list entry) (x : entry) (h' : list entry) :
  heappop h = Some (x, h') -> length h = S (length h').
Proof.
  intro Hpop. apply heappop_Permutation, Permutation_length in Hpop.
  exact Hpop.
Qed.

Lemma pop_order_Permutation (fuel : nat) :
  forall h, (length h <= fuel)%nat -> Permutation (pop_order fuel h) h.
Proof.
  induction fuel as [|fuel IH]; intros h Hlen.
  - destruct h; simpl in *; [reflexivity | lia].
  - simpl. destruct (heappop h) as [[x h']|] eqn:Hpop.
    + pose proof (heappop_length _ _ _ Hpop).
      rewrite IH by lia. symmetry. now apply heappop_Permutation.
    + apply heappop_None in Hpop. now subst.
Qed.

Lemma pop_order_sorted (fuel : nat) :
  forall h, (length h <= fuel)%nat -> is_heap h ->
            StronglySorted entry_le (pop_order fuel h).
Proof.
  induction fuel as [|fuel IH]; intros h Hlen Hh; simpl; [constructor|].
  destruct (heappop h) as [[x h']|] eqn:Hpop; [|constructor].
  pose proof (heappop_length _ _ _ Hpop).
  destruct (heappop_heap _ _ _ Hh Hpop) as [Hh' Hmin].
  constructor.
  - apply IH; auto. lia.
  - eapply Permutation_Forall; [|exact Hmin].
    symmetry. apply pop_order_Permutation. lia.
Qed.

(** A list sorted by [entry_le] is determined by its entries. *)
Lemma sorted_unique (l1 l2 : list entry) :
  StronglySorted entry_le l1 -> StronglySorted entry_le l2 ->
  Permutation l1 l2 -> l1 = l2.
Proof.
  revert l2. induction l1 as [|a l1 IH]; intros l2 H1 H2 Hp.
  - apply Permutation_nil in Hp. now subst.
  - destruct l2 as [|b l2];
      [apply Permutation_sym, Permutation_nil in Hp; discriminate|].
    inversion H1 as [|? ? Hs1 Hf1]; inversion H2 as [|? ? Hs2 Hf2]; subst.
    assert (Hab : a = b).
    { assert (Ha : In a (b :: l2))
        by (eapply Permutation_in; [exact Hp | now left]).
      assert (Hb : In b (a :: l1))
        by (eapply Permutation_in; [symmetry; exact Hp | now left]).
      destruct Ha as [<- | Ha]; auto. destruct Hb as [<- | Hb]; auto.
      rewrite Forall_forall in Hf1, Hf2.
      apply entry_le_antisym; auto. }
    subst. f_equal. apply IH; auto.
    now apply Permutation_cons_inv in Hp.
Qed.

End PopOrder.

(** ** The dictionary *)

Section Dictionary.

Lemma dict_contains_In (d : dict) (name : string) :
  dict_contains d name = true <-> In name (dict_keys d).
Proof.
  unfold dict_contains.
  induction d as [|[k v] rest IH]; simpl; [split; [discriminate | tauto]|].
  destruct (String.eqb_spec k name) as [-> | Hne]; [tauto|].
  rewrite IH. split; [tauto | intros [? | ?]; [congruence | auto]].
Qed.

Lemma dict_contains_false (d : dict) (name : string) :
  dict_contains d name = false <-> ~ In name (dict_keys d).
Proof.
  rewrite <- dict_contains_In. destruct (dict_contains d name);
    split; congruence.
Qed.

Lemma dict_get_In (d : dict) (name : string) (it : item) :
  dict_get d name = Some it -> In (name, it) d.
Proof.
  induction d as [|[k v] rest IH]; simpl; [discriminate|].
  destruct (String.eqb_spec k name) as [-> | Hne].
  - intros [= ->]. now left.
  - auto.
Qed.

Lemma In_dict_get (d : dict) (name : string) (it : item) :
  NoDup (dict_keys d) -> In (name, it) d -> dict_get d name = Some it.
Proof.
  induction d as [|[k v] rest IH]; simpl; [tauto|].
  intros Hnd [Hin | Hin]; inversion Hnd as [|? ? Hk Hrest]; subst.
  - injection Hin as -> ->. now rewrite String.eqb_refl.
  - destruct (String.eqb_spec k name) as [-> | Hne]; auto.
    destruct Hk. change name with (fst (name, it)). now apply in_map.
Qed.

Lemma dict_setitem_new (d : dict) (name : string) (v : item) :
  dict_contains d name = false -> dict_setitem d name v = d ++ [(name, v)].
Proof.
  unfold dict_contains.
  induction d as [|[k x] rest IH]; simpl; auto.
  destruct (String.eqb k name); [discriminate|].
  intro Hc. now rewrite IH.
Qed.

Lemma dict_keys_modify (d : dict) (name : string) (f : item -> item) :
  dict_keys (dict_modify d name f) = dict_keys d.
Proof.
  induction d as [|[k x] rest IH]; simpl; auto.
  destruct (String.eqb k name); simpl; congruence.
Qed.

Lemma dict_get_modify_same (d : dict) (name : string) (f : item -> item) :
  dict_get (dict_modify d name f) name = option_map f (dict_get d name).
Proof.
  induction d as [|[k x] rest IH]; simpl; auto.
  destruct (String.eqb k name) eqn:Hk; simpl; rewrite Hk; auto.
Qed.

Lemma dict_get_modify_other (d : dict) (name other : string)
    (f : item -> item) :
  other <> name ->
  dict_get (dict_modify d name f) other = dict_get d other.
Proof.
  intro Hne. induction d as [|[k x] rest IH]; simpl; auto.
  destruct (String.eqb_spec k name) as [-> | Hk]; simpl.
  - destruct (String.eqb_spec name other); congruence.
  - now rewrite IH.
Qed.

Lemma dict_keys_delitem_In (d : dict) (name k : string) :
  In k (dict_keys (dict_delitem d name)) -> In k (dict_keys d).
Proof.
  induction d as [|[k' x] rest IH]; simpl; auto.
  destruct (String.eqb k' name); simpl; tauto.
Qed.

Lemma dict_delitem_NoDup (d : dict) (name : string) :
  NoDup (dict_keys d) -> NoDup (dict_keys (dict_delitem d name)).
Proof.
  induction d as [|[k x] rest IH]; simpl; auto.
  intro Hnd. inversion Hnd as [|? ? Hk Hrest]; subst.
  destruct (String.eqb k name); simpl; auto.
  constructor; auto. intro Hin. apply Hk.
  eapply dict_keys_delitem_In; eauto.
Qed.

End Dictionary.

(** ** The read loop *)

Section ReadLoop.

Import heapq.

Lemma drain_loop_S (fuel : nat) (d : dict) (thr : Z) (a : entry)
    (t : list entry) (low_stock : list listing) (temp_heap : list entry) :
  drain_loop (S fuel) d thr (a :: t) low_stock temp_heap =
  match heappop (a :: t) with
  | None => None
  | Some ((_, name), heap') =>
      match dict_get d name with
      | Some it =>
          if (quantity it <? thr)%Z then
            drain_loop fuel d thr heap'
              (low_stock ++ [listing_of (name, it)])
              (temp_heap ++ [entry_of (name, it)])
          else drain_loop fuel d thr heap' low_stock temp_heap
      | None => drain_loop fuel d thr heap' low_stock temp_heap
      end
  end.
Proof. reflexivity. Qed.

(** The loop returns, and what it returns is read off the pop order. *)
Lemma drain_loop_pop_order (d : dict) (thr : Z) (fuel : nat) :
  forall heap low_stock temp_heap,
    (length heap <= fuel)%nat ->
    drain_loop fuel d thr heap low_stock temp_heap =
    Some (low_stock ++
            map listing_of (flat_map (live_low d thr) (pop_order fuel heap)),
          temp_heap ++
            map entry_of (flat_map (live_low d thr) (pop_order fuel heap))).
Proof.
  induction fuel as [|fuel IH]; intros heap low temp Hlen.
  - destruct heap; simpl in *; [|lia]. now rewrite !app_nil_r.
  - destruct heap as [|a t]; [simpl; now rewrite !app_nil_r|].
    rewrite drain_loop_S. cbn [pop_order].
    destruct (heappop (a :: t)) as [[[q name] h']|] eqn:Hpop;
      [|apply heappop_None in Hpop; discriminate].
    pose proof (heappop_length _ _ _ Hpop) as Hl.
    cbn [flat_map]. unfold live_low at 1 3. cbn [snd].
    destruct (dict_get d name) as [it|]; [|apply IH; lia].
    destruct (quantity it <? thr)%Z; [|apply IH; lia].
    rewrite IH by lia. cbn [app map]. now rewrite <- !app_assoc.
Qed.

Lemma get_low_stock_items_pop_order (self : InventoryManager) :
  let live := flat_map (live_low (items self) (threshold self))
                (pop_order (length (low_stock_heap self))
                   (low_stock_heap self)) in
  get_low_stock_items self =
  Some (map listing_of live,
        set_low_stock_heap (fun _ => heapify (map entry_of live)) self).
Proof.
  unfold get_low_stock_items.
  now rewrite drain_loop_pop_order by lia.
Qed.

End ReadLoop.

(** ** A heap in step with the dictionary *)

Section InStep.

Import heapq.

Lemma rebuild_fold (thr : Z) (l : dict) :
  forall acc,
    is_heap acc ->
    is_heap (fold_left (rebuild_step thr) l acc) /\
    Permutation (fold_left (rebuild_step thr) l acc)
      (acc ++ map entry_of (filter (is_low thr) l)).
Proof.
  induction l as [|kv l IH]; intros acc Hacc; simpl.
  - split; auto. now rewrite app_nil_r.
  - unfold rebuild_step at 2 4. fold (is_low thr kv).
    destruct (is_low thr kv).
    + destruct (IH (heappush acc (quantity (snd kv), fst kv))
                  (heappush_heap _ _ Hacc)) as [Hh Hp].
      split; auto. rewrite Hp, heappush_Permutation. simpl.
      apply Permutation_middle.
    + now apply IH.
Qed.

Lemma in_step_stored (name : string) (q : Z) (p : float)
    (self : InventoryManager) :
  in_step self -> dict_contains (items self) name = false ->
  in_step (stored name q p self).
Proof.
  intros [Hnd [Hh Hp]] Hnew.
  assert (Hnd' : NoDup (dict_keys (items self ++
                          [(name, {| quantity := q; price := p |})]))).
  { unfold dict_keys. rewrite map_app. simpl.
    apply NoDup_app; auto.
    - repeat constructor. simpl. tauto.
    - intros k Hk [<- | []]. now apply dict_contains_false in Hnew. }
  assert (Hlow : low_items (items self ++
                              [(name, {| quantity := q; price := p |})])
                   (threshold self) =
                 low_items (items self) (threshold self) ++
                 (if (q <? threshold self)%Z
                  then [(name, {| quantity := q; price := p |})] else [])).
  { unfold low_items. rewrite filter_app. reflexivity. }
  unfold stored, in_step. cbn [set_items threshold items].
  destruct (q <? threshold self)%Z eqn:Hq;
    cbn [set_items set_low_stock_heap items low_stock_heap threshold];
    rewrite dict_setitem_new by auto; rewrite Hlow.
  - split; [|split]; auto using heappush_heap.
    rewrite heappush_Permutation, map_app. rewrite <- Hp.
    apply Permutation_cons_append.
  - rewrite app_nil_r. auto.
Qed.

(** With the heap in step, every entry popped is the live entry of a
    low-stock item: nothing is dropped and nothing is stale. *)
Lemma live_low_in_step (self : InventoryManager) (l : list entry) :
  in_step self ->
  (forall e, In e l -> In e (low_stock_heap self)) ->
  map entry_of (flat_map (live_low (items self) (threshold self)) l) = l.
Proof.
  intros [Hnd [_ Hp]] Hl. induction l as [|e l IH]; simpl; auto.
  rewrite map_app, IH by (intros; apply Hl; now right). clear IH.
  assert (He : In e (map entry_of (low_items (items self) (threshold self))))
    by (eapply Permutation_in; [exact Hp | apply Hl; now left]).
  apply in_map_iff in He. destruct He as [[n it] [<- Hin]].
  apply filter_In in Hin. destruct Hin as [Hin Hlow].
  unfold live_low, entry_of. simpl.
  rewrite (In_dict_get _ _ _ Hnd Hin).
  unfold is_low in Hlow. simpl in Hlow. now rewrite Hlow.
Qed.

(** In any state, what is read is decided per entry by the live item. *)
Lemma live_low_of_items (d : dict) (thr : Z) :
  NoDup (dict_keys d) ->
  flat_map (live_low d thr) (map entry_of (low_items d thr)) =
  low_items d thr.
Proof.
  intro Hnd. unfold low_items.
  assert (Hsub : forall kv, In kv (filter (is_low thr) d) -> In kv d)
    by (intros kv Hkv; now apply filter_In in Hkv).
  assert (Hlow : forall kv, In kv (filter (is_low thr) d) ->
                            is_low thr kv = true)
    by (intros kv Hkv; now apply filter_In in Hkv).
  induction (filter (is_low thr) d) as [|[n it] l IH]; simpl; auto.
  rewrite IH;
    [| intros; apply Hsub; now right | intros; apply Hlow; now right].
  unfold live_low, entry_of. simpl.
  rewrite (In_dict_get d n it Hnd) by (apply Hsub; now left).
  specialize (Hlow (n, it) ltac:(now left)). unfold is_low in Hlow.
  simpl in Hlow. now rewrite Hlow.
Qed.

Lemma in_step_get_low_stock_items (self : InventoryManager)
    (r : list listing) (self' : InventoryManager) :
  in_step self -> get_low_stock_items self = Some (r, self') ->
  in_step self'.
Proof.
  intros Hin Hget. rewrite get_low_stock_items_pop_order in Hget.
  injection Hget as _ <-.
  pose proof (pop_order_Permutation (length (low_stock_heap self))
                (low_stock_heap self) ltac:(lia)) as Hpo.
  rewrite live_low_in_step
    by (auto; intros e He; eapply Permutation_in; eauto).
  destruct Hin as [Hnd [Hh Hp]].
  unfold in_step; cbn [set_low_stock_heap items low_stock_heap threshold].
  split; [|split]; auto using heapify_heap.
  now rewrite heapify_Permutation, Hpo.
Qed.

End InStep.

(** ** What a call does to the manager, whatever the store answers *)

Section Outcomes.

Context {db : Type} `{Sqlite3 db}.

Ltac unfold_monad :=
  unfold bind, ret, get_self, assign, sql, try_except_IntegrityError.

(** Case analysis on the answers of the store, one call at a time. *)
Ltac store_answers :=
  repeat match goal with
    | |- context [connect ?d] =>
        destruct (connect d) as [[[]|] ?]; cbn [fst snd]
    | |- context [execute ?s ?d] =>
        destruct (execute s d) as [[[]|] ?]; cbn [fst snd]
    | |- context [commit ?d] =>
        destruct (commit d) as [[[]|] ?]; cbn [fst snd]
    | |- context [close ?d] =>
        destruct (close d) as [[[]|] ?]; cbn [fst snd]
    end.

Lemma in_step_rebuilt (self : InventoryManager) :
  NoDup (dict_keys (items self)) -> rebuilt self -> in_step self.
Proof.
  intros Hnd Hr. unfold in_step, rebuilt in *. rewrite Hr.
  destruct (rebuild_fold (threshold self) (items self) [] is_heap_nil)
    as [Hh Hp].
  auto.
Qed.

Lemma add_item_outcome (name : string) (q : Z) (p : float)
    (w : world) (r : result (bool * string)) (w' : world) :
  add_item name q p w = (r, w') ->
  (fst w' = fst w /\ r <> Returned (true, "Item added successfully")) \/
  (r = Returned (true, "Item added successfully") /\
   dict_contains (items (fst w)) name = false /\
   fst w' = stored name q p (fst w)).
Proof.
  destruct w as [self d]. unfold add_item. unfold_monad. cbn [fst snd].
  destruct (dict_contains (items self) name) eqn:Hc.
  - intros [= <- <-]. left. split; [reflexivity | discriminate].
  - store_answers;
      try (intros [= <- <-]; left; split; [reflexivity | discriminate]).
    unfold stored. cbn [set_items threshold].
    destruct (q <? threshold self)%Z;
      intros [= <- <-]; right; auto.
Qed.

Lemma update_item_outcome (name : string) (q : option Z) (p : option float)
    (w : world) (r : result (bool * string)) (w' : world) :
  update_item name q p w = (r, w') ->
  (dict_contains (items (fst w)) name = false /\
   r = Returned (false, "Item not found") /\ w' = w) \/
  (dict_contains (items (fst w)) name = true /\
   threshold (fst w') = threshold (fst w) /\
   ((r = Returned (true, "Item updated successfully") /\
     items (fst w') = assign_fields name q p (items (fst w)) /\
     rebuilt (fst w')) \/
    (exists e q' p',
       r = Raised e /\ (q' = None \/ q' = q) /\ (p' = None \/ p' = p) /\
       items (fst w') = assign_fields name q' p' (items (fst w)) /\
       low_stock_heap (fst w') = low_stock_heap (fst w)))).
Proof.
  destruct w as [self d]. unfold update_item. unfold_monad. cbn [fst snd].
  destruct (dict_contains (items self) name) eqn:Hc; cbn [negb];
    [| intros [= <- <-]; left; auto].
  destruct q as [q|], p as [p|]; store_answers;
    intros [= <- <-]; cbn [fst snd]; right;
    (split; [reflexivity|]); (split; [reflexivity|]);
    try (left; repeat split; reflexivity).
  all: right; eexists; try solve
    [ exists None, None; repeat split; auto
    | exists (Some q), None; repeat split; auto
    | exists (Some q), (Some p); repeat split; auto
    | exists None, (Some p); repeat split; auto ].
Qed.

Lemma delete_item_outcome (name : string)
    (w : world) (r : result (bool * string)) (w' : world) :
  delete_item name w = (r, w') ->
  (fst w' = fst w /\ r <> Returned (true, "Item deleted successfully")) \/
  (r = Returned (true, "Item deleted successfully") /\
   dict_contains (items (fst w)) name = true /\
   threshold (fst w') = threshold (fst w) /\
   items (fst w') = dict_delitem (items (fst w)) name /\
   rebuilt (fst w')).
Proof.
  destruct w as [self d]. unfold delete_item. unfold_monad. cbn [fst snd].
  destruct (dict_contains (items self) name) eqn:Hc; cbn [negb].
  - store_answers;
      try (intros [= <- <-]; left; split; [reflexivity | discriminate]).
    intros [= <- <-]. right. repeat split; reflexivity.
  - intros [= <- <-]. left. split; [reflexivity | discriminate].
Qed.

Lemma set_threshold_outcome (t : Z) (w : world) (r : result unit)
    (w' : world) :
  set_threshold t w = (r, w') ->
  items (fst w') = items (fst w) /\
  threshold (fst w') = t /\
  ((r = Returned tt /\ rebuilt (fst w')) \/
   (exists e, r = Raised e /\
              low_stock_heap (fst w') = low_stock_heap (fst w))).
Proof.
  destruct w as [self d]. unfold set_threshold. unfold_monad. cbn [fst snd].
  store_answers; intros [= <- <-]; cbn [fst snd]; repeat split;
    try (left; split; reflexivity);
    right; eexists; split; reflexivity.
Qed.

End Outcomes.

(** ** Every run keeps the heap in step *)

Section Runs.

Context {db : Type} `{Sqlite3 db}.

Lemma load_row_stored (self : InventoryManager) (r : string * Z * float) :
  load_row self r = stored (fst (fst r)) (snd (fst r)) (snd r) self.
Proof. destruct r as [[n q] p]. reflexivity. Qed.

Lemma stored_keys (name : string) (q : Z) (p : float)
    (self : InventoryManager) :
  dict_contains (items self) name = false ->
  dict_keys (items (stored name q p self)) = dict_keys (items self) ++ [name].
Proof.
  intro Hnew. unfold stored. cbn [set_items threshold].
  destruct (q <? threshold self)%Z;
    cbn [set_items set_low_stock_heap items];
    rewrite dict_setitem_new by auto; unfold dict_keys;
    now rewrite map_app.
Qed.

Lemma load_rows_in_step (rows : list (string * Z * float)) :
  forall self,
    NoDup (map (fun r => fst (fst r)) rows) ->
    (forall r, In r rows -> ~ In (fst (fst r)) (dict_keys (items self))) ->
    in_step self ->
    in_step (fold_left load_row rows self).
Proof.
  induction rows as [|r rows IH]; intros self Hnd Hnew Hin; simpl; auto.
  inversion Hnd as [|? ? Hr Hrows]; subst.
  assert (Hc : dict_contains (items self) (fst (fst r)) = false)
    by (apply dict_contains_false, Hnew; now left).
  rewrite load_row_stored. apply IH; auto.
  - intros r' Hr'. rewrite stored_keys by auto.
    rewrite in_app_iff. intros [Hk | [Hk | []]].
    + apply (Hnew r'); auto. now right.
    + apply Hr. rewrite Hk.
      exact (in_map (fun r => fst (fst r)) rows r' Hr').
  - now apply in_step_stored.
Qed.

Lemma in_step_empty (t : Z) :
  in_step {| items := []; low_stock_heap := []; threshold := t |}.
Proof.
  unfold in_step. simpl. split; [constructor | split];
    [apply is_heap_nil | constructor].
Qed.

Lemma new_InventoryManager_in_step (d : db) (w : world) :
  new_InventoryManager d = (Returned tt, w) -> in_step (fst w).
Proof.
  unfold new_InventoryManager, __init__, init_db, load_items.
  unfold bind, ret, get_self, assign, sql, fetch. cbn [fst snd].
  repeat match goal with
    | |- context [connect ?d] =>
        destruct (connect d) as [[[]|] ?]; cbn [fst snd]
    | |- context [execute ?s ?d] =>
        destruct (execute s d) as [[[]|] ?]; cbn [fst snd]
    | |- context [commit ?d] =>
        destruct (commit d) as [[[]|] ?]; cbn [fst snd]
    | |- context [close ?d] =>
        destruct (close d) as [[[]|] ?]; cbn [fst snd]
    | |- context [match fetchone_threshold ?d with _ => _ end] =>
        destruct (fetchone_threshold d); cbn [fst snd]
    end;
    try discriminate;
    intros [= <-]; cbn [fst];
    (apply load_rows_in_step;
     [apply fetchall_items_unique | intros r _ [] | apply in_step_empty]).
Qed.

Lemma reachable_in_step (w : world) : reachable w -> in_step (fst w).
Proof.
  induction 1 as
    [ d w Hnew
    | w d _ IH
    | name q p w r w' _ IH Hcall
    | name q p w r w' _ IH Hcall
    | name w r w' _ IH Hcall
    | t w w' _ IH Hcall
    | w r self' _ IH Hcall ].
  - eapply new_InventoryManager_in_step; eauto.
  - exact IH.
  - destruct (add_item_outcome _ _ _ _ _ _ Hcall)
      as [[-> _] | [_ [Hc ->]]]; auto using in_step_stored.
  - destruct (update_item_outcome _ _ _ _ _ _ Hcall)
      as [[_ [_ ->]] | [_ [_ [[_ [Hi Hr]] | [e [q' [p' [[=] _]]]]]]]]; auto.
    apply in_step_rebuilt; auto. rewrite Hi. unfold assign_fields.
    destruct IH as [Hnd _].
    destruct q, p; now rewrite ?dict_keys_modify.
  - destruct (delete_item_outcome _ _ _ _ Hcall)
      as [[-> _] | [_ [_ [_ [Hi Hr]]]]]; auto.
    apply in_step_rebuilt; auto. rewrite Hi.
    apply dict_delitem_NoDup, IH.
  - destruct (set_threshold_outcome _ _ _ _ Hcall)
      as [Hi [_ [[_ Hr] | [e [[=] _]]]]].
    apply in_step_rebuilt; auto. rewrite Hi. apply IH.
  - cbn [fst] in *. eapply in_step_get_low_stock_items; eauto.
Qed.

End Runs.

(** ** Reading a heap that is in step *)

Section ReadInStep.

Import heapq.

Lemma listing_key_of (kv : string * item) :
  listing_key (listing_of kv) = entry_of kv.
Proof. reflexivity. Qed.

Lemma listing_le_entry_le (a b : listing) :
  entry_le (listing_key a) (listing_key b) -> listing_le a b.
Proof. intro Hle. apply entry_le_spec in Hle. exact Hle. Qed.

Lemma StronglySorted_weaken {A : Type} (R R' : A -> A -> Prop)
    (l : list A) :
  (forall a b, R a b -> R' a b) ->
  StronglySorted R l -> StronglySorted R' l.
Proof.
  intros Hsub Hs. induction Hs as [|a l Hs IH Hf]; constructor; auto.
  eapply Forall_impl; [|exact Hf]. auto.
Qed.

Lemma StronglySorted_map {A B : Type} (R : B -> B -> Prop) (f : A -> B)
    (l : list A) :
  StronglySorted R (map f l) -> StronglySorted (fun a b => R (f a) (f b)) l.
Proof.
  induction l as [|a l IH]; simpl; intro Hs; [constructor|].
  inversion Hs as [|? ? Hs' Hf]; subst. constructor; auto.
  rewrite Forall_map in Hf. exact Hf.
Qed.

(** The entries of the items read are the pop order itself. *)
Lemma read_in_step (self : InventoryManager) :
  in_step self ->
  let live := flat_map (live_low (items self) (threshold self))
                (pop_order (length (low_stock_heap self))
                   (low_stock_heap self)) in
  map entry_of live =
    pop_order (length (low_stock_heap self)) (low_stock_heap self) /\
  Permutation live (low_items (items self) (threshold self)).
Proof.
  intros Hin live.
  pose proof (pop_order_Permutation (length (low_stock_heap self))
                (low_stock_heap self) ltac:(lia)) as Hpo.
  split.
  - apply live_low_in_step; auto.
    intros e He. eapply Permutation_in; eauto.
  - destruct Hin as [Hnd [_ Hp]]. subst live.
    rewrite <- (live_low_of_items (items self) (threshold self) Hnd).
    apply Permutation_flat_map. now rewrite Hpo.
Qed.

End ReadInStep.

(** * The claims *)

(** ** Rejected calls *)

Section Rejected.

Context {db : Type} `{Sqlite3 db}.

(** C6. When [name] is already a key of [items],
    [add_item(name, quantity, price)] answers
    [(False, "Item already exists")] and changes nothing: the items, the
    heap, the threshold (and the database) are as before. *)
Theorem add_item_existing (name : string) (q : Z) (p : float) (w : world) :
  dict_contains (items (fst w)) name = true ->
  add_item name q p w = (Returned (false, "Item already exists"), w).
Proof.
  intro Hc. unfold add_item, bind, get_self, ret. cbn [fst].
  now rewrite Hc.
Qed.

(** C7. When [name] is not a key of [items], [update_item(name, ...)] and
    [delete_item(name)] each answer [(False, "Item not found")] and change
    nothing: the items, the heap, the threshold (and the database) are as
    before. *)
Theorem update_delete_missing (name : string) (q : option Z)
    (p : option float) (w : world) :
  dict_contains (items (fst w)) name = false ->
  update_item name q p w = (Returned (false, "Item not found"), w) /\
  delete_item name w = (Returned (false, "Item not found"), w).
Proof.
  intro Hc. unfold update_item, delete_item, bind, get_self, ret. cbn [fst].
  now rewrite Hc.
Qed.

End Rejected.

(** ** Partial updates *)

Section PartialUpdate.

Context {db : Type} `{Sqlite3 db}.

(** The item after the assignments of [update_item]. *)
Lemma assign_fields_same (name : string) (q : option Z) (p : option float)
    (d : dict) :
  dict_get (assign_fields name q p d) name =
  option_map
    (fun it =>
       {| quantity := match q with Some v => v | None => quantity it end;
          price := match p with Some v => v | None => price it end |})
    (dict_get d name).
Proof.
  unfold assign_fields.
  destruct q, p; rewrite ?dict_get_modify_same;
    destruct (dict_get d name) as [[]|]; reflexivity.
Qed.

Lemma assign_fields_other (name other : string) (q : option Z)
    (p : option float) (d : dict) :
  other <> name ->
  dict_get (assign_fields name q p d) other = dict_get d other.
Proof.
  intro Hne. unfold assign_fields.
  destruct q, p; now rewrite ?dict_get_modify_other by auto.
Qed.

Lemma assign_fields_keys (name : string) (q : option Z) (p : option float)
    (d : dict) :
  dict_keys (assign_fields name q p d) = dict_keys d.
Proof.
  unfold assign_fields. destruct q, p; now rewrite ?dict_keys_modify.
Qed.

(** C8. For an existing [name], [update_item(name, quantity, price)]
    changes only the fields it was given, however the call ends: the set
    (and order) of names is unchanged, every other item is unchanged, the
    quantity of [name] is unchanged when [quantity] is [None] and its
    price is unchanged when [price] is [None]. When the call returns, the
    fields given have their new values. *)
Theorem update_item_frame (name : string) (q : option Z) (p : option float)
    (w : world) (r : result (bool * string)) (w' : world) :
  dict_contains (items (fst w)) name = true ->
  update_item name q p w = (r, w') ->
  dict_keys (items (fst w')) = dict_keys (items (fst w)) /\
  (forall other, other <> name ->
     dict_get (items (fst w')) other = dict_get (items (fst w)) other) /\
  exists it it',
    dict_get (items (fst w)) name = Some it /\
    dict_get (items (fst w')) name = Some it' /\
    (q = None -> quantity it' = quantity it) /\
    (p = None -> price it' = price it) /\
    (forall x, r = Returned x ->
       (forall v, q = Some v -> quantity it' = v) /\
       (forall v, p = Some v -> price it' = v)).
Proof.
  intros Hc Hcall.
  assert (Hit : exists it, dict_get (items (fst w)) name = Some it).
  { unfold dict_contains in Hc.
    destruct (dict_get (items (fst w)) name) as [it|]; [eauto | discriminate]. }
  destruct Hit as [it Hit].
  destruct (update_item_outcome _ _ _ _ _ _ Hcall)
    as [[Hc' _] | [_ [_ [[-> [Hi _]] | [e [q' [p' [-> [Hq [Hp [Hi _]]]]]]]]]]];
    [congruence | |]; rewrite Hi.
  - split; [apply assign_fields_keys|].
    split; [intros; now apply assign_fields_other|].
    exists it. eexists. rewrite assign_fields_same, Hit. cbn [option_map].
    split; [reflexivity|]. split; [reflexivity|]. cbn [quantity price].
    split; [now intros ->|]. split; [now intros ->|].
    intros _ _. split; now intros v ->.
  - split; [apply assign_fields_keys|].
    split; [intros; now apply assign_fields_other|].
    exists it. eexists. rewrite assign_fields_same, Hit. cbn [option_map].
    split; [reflexivity|]. split; [reflexivity|]. cbn [quantity price].
    split; [|split; [|discriminate]].
    + intros ->. now destruct Hq as [-> | ->].
    + intros ->. now destruct Hp as [-> | ->].
Qed.

(** With neither field given the dictionary is left as it is, however
    the call ends. *)
Lemma no_fields_keeps_items (name : string) (w : world)
    (r : result (bool * string)) (w' : world) :
  update_item name None None w = (r, w') ->
  items (fst w') = items (fst w).
Proof.
  intro Hcall.
  destruct (update_item_outcome _ _ _ _ _ _ Hcall)
    as [[_ [_ ->]] | [_ [_ [[_ [Hi _]] | [e [q' [p' [_ [Hq [Hp [Hi _]]]]]]]]]]];
    auto.
  now destruct Hq as [-> | ->], Hp as [-> | ->].
Qed.

(** C10. For an existing [name], [update_item(name)] with neither
    [quantity] nor [price] is not rejected: when the store raises nothing
    it returns [(True, "Item updated successfully")], and the items (every
    quantity and price) and the threshold are as before. *)
Theorem update_item_no_fields (name : string) (self : InventoryManager)
    (d d1 d2 d3 : db) :
  dict_contains (items self) name = true ->
  connect d = (None, d1) -> commit d1 = (None, d2) ->
  close d2 = (None, d3) ->
  exists self',
    update_item name None None (self, d) =
      (Returned (true, "Item updated successfully"), (self', d3)) /\
    items self' = items self /\
    threshold self' = threshold self.
Proof.
  intros Hc Hconnect Hcommit Hclose.
  exists (_rebuild_heap self).
  unfold update_item, bind, get_self, ret, sql, assign. cbn [fst snd].
  rewrite Hc. cbn [negb fst snd].
  rewrite Hconnect. cbn [fst snd]. rewrite Hcommit. cbn [fst snd].
  rewrite Hclose. cbn [fst snd]. auto.
Qed.

End PartialUpdate.

(** ** Reading the low-stock items *)

Section Reading.

Import heapq.

(** [get_low_stock_items] always returns: the loop ends when the heap is
    empty, and [heappop] is never called on an empty heap. *)
Lemma get_low_stock_items_returns (self : InventoryManager) :
  exists r self', get_low_stock_items self = Some (r, self').
Proof. rewrite get_low_stock_items_pop_order. eauto. Qed.

(** C3 (as the code behaves). In every state, whatever the heap holds,
    [get_low_stock_items] returns, and each entry [(quantity, name)] of
    the heap counts as valid exactly when [name] is a key of [items] and
    the live quantity of that item is below the threshold; the entry's own
    quantity is never compared with the live one. Each valid entry adds
    one listing, with the live quantity and price, and is put back with
    the live quantity; every other entry is dropped. The items and the
    threshold are left as they are. *)
Theorem get_low_stock_items_per_entry (self : InventoryManager) :
  exists r self',
    get_low_stock_items self = Some (r, self') /\
    Permutation r
      (map listing_of
         (flat_map (live_low (items self) (threshold self))
            (low_stock_heap self))) /\
    Permutation (low_stock_heap self')
      (map entry_of
         (flat_map (live_low (items self) (threshold self))
            (low_stock_heap self))) /\
    items self' = items self /\
    threshold self' = threshold self.
Proof.
  rewrite get_low_stock_items_pop_order. do 2 eexists.
  split; [reflexivity|].
  pose proof (pop_order_Permutation (length (low_stock_heap self))
                (low_stock_heap self) ltac:(lia)) as Hpo.
  cbn [set_low_stock_heap low_stock_heap items threshold].
  split; [|split; [|split; reflexivity]].
  - apply Permutation_map, Permutation_flat_map, Hpo.
  - rewrite heapify_Permutation.
    apply Permutation_map, Permutation_flat_map, Hpo.
Qed.

(** C3 as the specification words it fails: the only entry of
    [Examples.stale] is [(3, "a")] while item ["a"] has quantity 5, so no
    entry is valid in the specification's sense; yet the entry adds
    ["a"] to the result and is put back, as [(5, "a")]. *)
Lemma stale_entry_counts_as_valid :
  forallb (fun e => negb (valid_per_spec (items Examples.stale)
                            (threshold Examples.stale) e))
    (low_stock_heap Examples.stale) = true /\
  get_low_stock_items Examples.stale =
    Some ([{| l_name := "a"; l_quantity := 5; l_price := 0.5%float |}],
          {| items := [("a", {| quantity := 5; price := 0.5%float |})];
             low_stock_heap := [(5, "a")];
             threshold := 10 |}).
Proof. split; reflexivity. Qed.

End Reading.

Section ReadingRuns.

Import heapq.

Context {db : Type} `{Sqlite3 db}.

(** On runs (calls that return): in every state of a run,
    [get_low_stock_items] returns exactly the items whose quantity is
    below the threshold, each once, with its current quantity and price.
    The theorems on aborted calls below show that this ends with a call
    the store aborts. *)
Theorem get_low_stock_items_exact (w : world) :
  reachable w ->
  exists r self',
    get_low_stock_items (fst w) = Some (r, self') /\
    Permutation r
      (map listing_of (low_items (items (fst w)) (threshold (fst w)))) /\
    NoDup (map l_name r).
Proof.
  intro Hreach. pose proof (reachable_in_step w Hreach) as Hin.
  destruct (read_in_step (fst w) Hin) as [_ Hlive].
  rewrite get_low_stock_items_pop_order. do 2 eexists.
  split; [reflexivity|]. split; [now apply Permutation_map|].
  rewrite map_map. cbn [listing_of l_name].
  eapply Permutation_NoDup;
    [apply Permutation_map; symmetry; exact Hlive|].
  destruct Hin as [Hnd _]. unfold low_items.
  revert Hnd. generalize (items (fst w)). intro d.
  induction d as [|kv d IH]; simpl; intro Hnd; [constructor|].
  inversion Hnd as [|? ? Hk Hd]; subst.
  destruct (is_low (threshold (fst w)) kv); simpl; auto.
  constructor; auto. intro Hin. apply Hk.
  apply in_map_iff in Hin. destruct Hin as [kv' [Hf Hin]].
  apply filter_In in Hin. rewrite <- Hf. apply in_map. tauto.
Qed.

(** On runs (calls that return): in every state of a run, every item
    whose quantity is below the threshold has an entry for its name in the
    heap. The theorems on aborted calls below show that this ends with a
    call the store aborts. *)
Theorem low_item_has_heap_entry (w : world) (name : string) (it : item) :
  reachable w ->
  dict_get (items (fst w)) name = Some it ->
  (quantity it < threshold (fst w))%Z ->
  exists q, In (q, name) (low_stock_heap (fst w)).
Proof.
  intros Hreach Hget Hlow.
  destruct (reachable_in_step w Hreach) as [_ [_ Hp]].
  exists (quantity it).
  eapply Permutation_in; [symmetry; exact Hp|].
  change (quantity it, name) with (entry_of (name, it)).
  apply in_map, filter_In. split; [now apply dict_get_In|].
  unfold is_low. simpl. now apply Z.ltb_lt.
Qed.

(** On runs (calls that return): in every state of a run, the list
    [get_low_stock_items] returns is in ascending order of quantity, and
    items of equal quantity are in lexicographic order of their names:
    each listing is at most every later one in the order "quantity, then
    name". The theorems on aborted calls below show that this ends with a
    call the store aborts. *)
Theorem get_low_stock_items_sorted (w : world) :
  reachable w ->
  exists r self',
    get_low_stock_items (fst w) = Some (r, self') /\
    StronglySorted listing_le r.
Proof.
  intro Hreach. pose proof (reachable_in_step w Hreach) as Hin.
  destruct (read_in_step (fst w) Hin) as [Hkeys _].
  rewrite get_low_stock_items_pop_order. do 2 eexists.
  split; [reflexivity|].
  apply (StronglySorted_weaken _ _ _ listing_le_entry_le).
  apply StronglySorted_map.
  rewrite map_map.
  rewrite (map_ext _ entry_of listing_key_of), Hkeys.
  apply pop_order_sorted; [lia | apply Hin].
Qed.

(** On runs (calls that return): in every state of a run, two calls of
    [get_low_stock_items] in a row return the same list.
    The theorems on aborted calls below show that this ends with a call
    the store aborts. *)
Theorem get_low_stock_items_twice (w : world) :
  reachable w ->
  exists r self1 self2,
    get_low_stock_items (fst w) = Some (r, self1) /\
    get_low_stock_items self1 = Some (r, self2).
Proof.
  intro Hreach. pose proof (reachable_in_step w Hreach) as Hin.
  destruct (get_low_stock_items_returns (fst w)) as [r [self1 Hfirst]].
  pose proof (in_step_get_low_stock_items _ _ _ Hin Hfirst) as Hin1.
  exists r, self1. eexists. split; [exact Hfirst|].
  rewrite get_low_stock_items_pop_order in Hfirst.
  injection Hfirst as Hr Hself1.
  destruct (read_in_step (fst w) Hin) as [Hkeys _].
  rewrite Hkeys in Hself1.
  set (po := pop_order (length (low_stock_heap (fst w)))
               (low_stock_heap (fst w))) in *.
  assert (Hsame : pop_order (length (low_stock_heap self1))
                    (low_stock_heap self1) = po).
  { apply sorted_unique.
    - apply pop_order_sorted; [lia | apply Hin1].
    - apply pop_order_sorted; [lia | apply Hin].
    - rewrite pop_order_Permutation by lia.
      rewrite <- Hself1. cbn [set_low_stock_heap low_stock_heap].
      apply heapify_Permutation. }
  rewrite get_low_stock_items_pop_order, Hsame.
  subst self1. cbn [set_low_stock_heap items threshold].
  rewrite Hr. reflexivity.
Qed.

End ReadingRuns.

(** ** Writes that the store fails *)

Section FailedWrites.

Context {db : Type} `{Sqlite3 db}.

(** [add_item] and [delete_item] write to the store first: when the
    store raises, the manager is as it was. *)
Lemma add_item_raised_unchanged (name : string) (q : Z) (p : float)
    (w : world) (e : exn) (w' : world) :
  add_item name q p w = (Raised e, w') -> fst w' = fst w.
Proof.
  intro Hcall.
  destruct (add_item_outcome _ _ _ _ _ _ Hcall) as [[Hw _] | [[=] _]].
  exact Hw.
Qed.

Lemma delete_item_raised_unchanged (name : string)
    (w : world) (e : exn) (w' : world) :
  delete_item name w = (Raised e, w') -> fst w' = fst w.
Proof.
  intro Hcall.
  destruct (delete_item_outcome _ _ _ _ Hcall) as [[Hw _] | [[=] _]].
  exact Hw.
Qed.

(** So a run may go on after them. *)
Lemma add_item_raised_reachable (name : string) (q : Z) (p : float)
    (w : world) (e : exn) (w' : world) :
  reachable w -> add_item name q p w = (Raised e, w') -> reachable w'.
Proof.
  intros Hreach Hcall. apply add_item_raised_unchanged in Hcall.
  destruct w' as [self' d']. cbn [fst] in Hcall. subst self'.
  now apply reach_store.
Qed.

Lemma delete_item_raised_reachable (name : string)
    (w : world) (e : exn) (w' : world) :
  reachable w -> delete_item name w = (Raised e, w') -> reachable w'.
Proof.
  intros Hreach Hcall. apply delete_item_raised_unchanged in Hcall.
  destruct w' as [self' d']. cbn [fst] in Hcall. subst self'.
  now apply reach_store.
Qed.

(** Whatever makes [update_item] or [set_threshold] raise, the heap is
    not touched; the dictionary and the threshold may already be. *)
Lemma update_item_raised_heap (name : string) (q : option Z)
    (p : option float) (w : world) (e : exn) (w' : world) :
  update_item name q p w = (Raised e, w') ->
  low_stock_heap (fst w') = low_stock_heap (fst w) /\
  threshold (fst w') = threshold (fst w).
Proof.
  intro Hcall.
  destruct (update_item_outcome _ _ _ _ _ _ Hcall)
    as [[_ [[=] _]] | [_ [Ht [[[=] _] | [e' [q' [p' [_ [_ [_ [_ Hh]]]]]]]]]]].
  auto.
Qed.

Lemma set_threshold_raised (t : Z) (w : world) (e : exn) (w' : world) :
  set_threshold t w = (Raised e, w') ->
  items (fst w') = items (fst w) /\
  low_stock_heap (fst w') = low_stock_heap (fst w) /\
  threshold (fst w') = t.
Proof.
  intro Hcall.
  destruct (set_threshold_outcome _ _ _ _ Hcall)
    as [Hi [Ht [[[=] _] | [e' [_ Hh]]]]].
  auto.
Qed.

End FailedWrites.

(** C1 (where the code departs from it). [update_item] assigns to the
    inner dictionary before it executes the statement, and
    [set_threshold] assigns the threshold before it connects. Over a store
    that raises on the statement, [update_item("bolt", quantity=3)] ends
    with [OperationalError] and item ["bolt"] already has quantity 3
    instead of 5; over a store that refuses the connection,
    [set_threshold(25)] ends with [OperationalError] and the threshold is
    already 25 instead of 10. *)
Theorem failed_write_after_assignment :
  fst Examples.statement_fails =
    {| items := [("bolt", {| quantity := 5; price := 0.125%float |})];
       low_stock_heap := [(5, "bolt")];
       threshold := 10 |} /\
  fst (update_item "bolt" (Some 3) None Examples.statement_fails) =
    Raised OperationalError /\
  fst (snd (update_item "bolt" (Some 3) None Examples.statement_fails)) =
    {| items := [("bolt", {| quantity := 3; price := 0.125%float |})];
       low_stock_heap := [(5, "bolt")];
       threshold := 10 |} /\
  fst Examples.connect_fails = fst Examples.statement_fails /\
  fst (set_threshold 25 Examples.connect_fails) = Raised OperationalError /\
  fst (snd (set_threshold 25 Examples.connect_fails)) =
    {| items := [("bolt", {| quantity := 5; price := 0.125%float |})];
       low_stock_heap := [(5, "bolt")];
       threshold := 25 |}.
Proof. repeat split; reflexivity. Qed.

(** What follows from it: after [set_threshold(25)] was aborted, item
    ["axle"] (quantity 20) is below the threshold, the heap has no entry
    for it and [get_low_stock_items] returns nothing. *)
Lemma low_item_missed_after_failed_write :
  let self := fst (snd (set_threshold 25 Examples.axle_connect_fails)) in
  dict_get (items self) "axle"
    = Some {| quantity := 20; price := 2%float |} /\
  threshold self = 25 /\
  low_stock_heap self = [] /\
  get_low_stock_items self = Some ([], self).
Proof. repeat split; reflexivity. Qed.

(** ** What the assignments before the write cost the low-stock view *)

(** C2 (where the code departs from it). Item ["axle"] has quantity 20
    under threshold 10. [update_item("axle", quantity=3)] assigns the
    quantity, the store raises on the statement, and the heap is not
    rebuilt: ["axle"] is now below the threshold and
    [get_low_stock_items] returns nothing. *)
Theorem low_stock_missed_after_aborted_update :
  fst (update_item "axle" (Some 3) None Examples.axle_statement_fails) =
    Raised OperationalError /\
  fst Examples.axle_update_aborted =
    {| items := [("axle", {| quantity := 3; price := 2%float |})];
       low_stock_heap := [];
       threshold := 10 |} /\
  map listing_of
    (low_items (items (fst Examples.axle_update_aborted))
       (threshold (fst Examples.axle_update_aborted))) =
    [{| l_name := "axle"; l_quantity := 3; l_price := 2%float |}] /\
  get_low_stock_items (fst Examples.axle_update_aborted) =
    Some ([], fst Examples.axle_update_aborted).
Proof. repeat split; reflexivity. Qed.

(** C4 (where the code departs from it). Item ["axle"] has quantity 20
    under threshold 10. [set_threshold(25)] assigns the threshold, the
    store refuses the connection, and the heap is not rebuilt; then
    [add_item("x", 50, 1.0)] returns [(True, "Item added successfully")].
    After that completed call ["axle"] is below the threshold and the
    heap holds no entry for it. *)
Theorem low_item_without_entry_after_aborted_threshold :
  fst (set_threshold 25 Examples.axle_connect_fails) =
    Raised OperationalError /\
  add_item "x" 50 1%float Examples.axle_threshold_aborted =
    (Returned (true, "Item added successfully"), Examples.axle_then_x) /\
  dict_get (items (fst Examples.axle_then_x)) "axle" =
    Some {| quantity := 20; price := 2%float |} /\
  (20 < threshold (fst Examples.axle_then_x))%Z /\
  low_stock_heap (fst Examples.axle_then_x) = [] /\
  (forall q, ~ In (q, "axle") (low_stock_heap (fst Examples.axle_then_x))).
Proof.
  split; [reflexivity|]. split; [reflexivity|]. split; [reflexivity|].
  split; [reflexivity|]. split; [reflexivity|].
  intros q [].
Qed.

(** C5 (where the code departs from it). Items ["a"] (5) and ["b"] (7)
    are below threshold 10. [update_item("a", quantity=9)] assigns the
    quantity, the store raises on the statement, and the heap keeps the
    entry [(5, "a")]: [get_low_stock_items] pops ["a"] first and returns
    it with quantity 9 before ["b"] with quantity 7. *)
Theorem listing_unsorted_after_aborted_update :
  fst (update_item "a" (Some 9) None Examples.a_statement_fails) =
    Raised OperationalError /\
  fst Examples.a_update_aborted =
    {| items := [("a", {| quantity := 9; price := 1%float |});
                 ("b", {| quantity := 7; price := 1%float |})];
       low_stock_heap := [(5, "a"); (7, "b")];
       threshold := 10 |} /\
  option_map fst (get_low_stock_items (fst Examples.a_update_aborted)) =
    Some [{| l_name := "a"; l_quantity := 9; l_price := 1%float |};
          {| l_name := "b"; l_quantity := 7; l_price := 1%float |}] /\
  ~ StronglySorted listing_le
      [{| l_name := "a"; l_quantity := 9; l_price := 1%float |};
       {| l_name := "b"; l_quantity := 7; l_price := 1%float |}].
Proof.
  split; [reflexivity|]. split; [reflexivity|]. split; [reflexivity|].
  intro Hs. inversion Hs as [|? ? _ Hall]; subst.
  inversion Hall as [|? ? Hle _]; subst.
  unfold listing_le in Hle. cbn [l_quantity] in Hle. lia.
Qed.

(** C9 (where the code departs from it). In the state the aborted
    [update_item("a", quantity=9)] leaves, the first call of
    [get_low_stock_items] returns ["a"] then ["b"], and the second, with
    no call in between, returns ["b"] then ["a"]. *)
Theorem listing_differs_after_aborted_update :
  fst (update_item "a" (Some 9) None Examples.a_statement_fails) =
    Raised OperationalError /\
  exists self1 self2,
    get_low_stock_items (fst Examples.a_update_aborted) =
      Some ([{| l_name := "a"; l_quantity := 9; l_price := 1%float |};
             {| l_name := "b"; l_quantity := 7; l_price := 1%float |}],
            self1) /\
    get_low_stock_items self1 =
      Some ([{| l_name := "b"; l_quantity := 7; l_price := 1%float |};
             {| l_name := "a"; l_quantity := 9; l_price := 1%float |}],
            self2).
Proof.
  split; [reflexivity|].
  do 2 eexists. split; reflexivity.
Qed.

(** ** The theorems at work on concrete runs *)

Section Witnesses.

Lemma fresh_reachable : reachable Examples.fresh.
Proof. exact (reach_new MemDb.empty Examples.fresh eq_refl). Defined.

Lemma with_bolt_reachable : reachable Examples.with_bolt.
Proof.
  exact (reach_add_item "bolt" 5 0.125%float Examples.fresh
           (true, "Item added successfully") Examples.with_bolt
           fresh_reachable eq_refl).
Defined.

Lemma with_three_reachable : reachable Examples.with_three.
Proof.
  refine (reach_add_item "axle" 5 2%float Examples.with_nut
            (true, "Item added successfully") Examples.with_three _ eq_refl).
  exact (reach_add_item "nut" 5 0.5%float Examples.with_bolt
           (true, "Item added successfully") Examples.with_nut
           with_bolt_reachable eq_refl).
Defined.

Lemma add_item_existing_witness :
  dict_contains (items (fst Examples.with_bolt)) "bolt" = true /\
  add_item "bolt" 7 1%float Examples.with_bolt =
    (Returned (false, "Item already exists"), Examples.with_bolt).
Proof.
  split; [reflexivity|].
  apply (add_item_existing "bolt" 7 1%float Examples.with_bolt).
  reflexivity.
Defined.

Lemma update_delete_missing_witness :
  dict_contains (items (fst Examples.with_bolt)) "nut" = false /\
  update_item "nut" (Some 1) None Examples.with_bolt =
    (Returned (false, "Item not found"), Examples.with_bolt) /\
  delete_item "nut" Examples.with_bolt =
    (Returned (false, "Item not found"), Examples.with_bolt).
Proof.
  split; [reflexivity|].
  apply (update_delete_missing "nut" (Some 1) None Examples.with_bolt).
  reflexivity.
Defined.

Lemma update_item_frame_witness :
  dict_contains (items (fst Examples.with_bolt)) "bolt" = true /\
  dict_keys (items (fst (snd Examples.bolt_updated))) =
    dict_keys (items (fst Examples.with_bolt)) /\
  (forall other, other <> "bolt" ->
     dict_get (items (fst (snd Examples.bolt_updated))) other =
     dict_get (items (fst Examples.with_bolt)) other) /\
  exists it it',
    dict_get (items (fst Examples.with_bolt)) "bolt" = Some it /\
    dict_get (items (fst (snd Examples.bolt_updated))) "bolt" = Some it' /\
    (Some 30%Z = None -> quantity it' = quantity it) /\
    (@None float = None -> price it' = price it) /\
    (forall x, fst Examples.bolt_updated = Returned x ->
       (forall v, Some 30%Z = Some v -> quantity it' = v) /\
       (forall v, @None float = Some v -> price it' = v)).
Proof.
  split; [reflexivity|].
  apply (update_item_frame "bolt" (Some 30%Z) None Examples.with_bolt
           (fst Examples.bolt_updated) (snd Examples.bolt_updated));
    reflexivity.
Defined.

Lemma update_item_no_fields_witness :
  dict_contains (items (fst Examples.with_bolt)) "bolt" = true /\
  exists self',
    update_item "bolt" None None
      (fst Examples.with_bolt, snd Examples.with_bolt) =
      (Returned (true, "Item updated successfully"),
       (self', snd Examples.with_bolt)) /\
    items self' = items (fst Examples.with_bolt) /\
    threshold self' = threshold (fst Examples.with_bolt).
Proof.
  split; [reflexivity|].
  apply (update_item_no_fields "bolt" (fst Examples.with_bolt)
           (snd Examples.with_bolt) (snd Examples.with_bolt)
           (snd Examples.with_bolt) (snd Examples.with_bolt));
    reflexivity.
Defined.

Lemma get_low_stock_items_exact_witness :
  reachable Examples.with_three /\
  exists r self',
    get_low_stock_items (fst Examples.with_three) = Some (r, self') /\
    Permutation r
      (map listing_of
         (low_items (items (fst Examples.with_three))
            (threshold (fst Examples.with_three)))) /\
    NoDup (map l_name r).
Proof.
  split; [exact with_three_reachable|].
  apply (get_low_stock_items_exact Examples.with_three).
  exact with_three_reachable.
Defined.

Lemma low_item_has_heap_entry_witness :
  reachable Examples.with_bolt /\
  dict_get (items (fst Examples.with_bolt)) "bolt" =
    Some {| quantity := 5; price := 0.125%float |} /\
  (5 < threshold (fst Examples.with_bolt))%Z /\
  exists q, In (q, "bolt") (low_stock_heap (fst Examples.with_bolt)).
Proof.
  split; [exact with_bolt_reachable|].
  split; [reflexivity|]. split; [reflexivity|].
  apply (low_item_has_heap_entry Examples.with_bolt "bolt"
           {| quantity := 5; price := 0.125%float |});
    [exact with_bolt_reachable | reflexivity | reflexivity].
Defined.

Lemma get_low_stock_items_sorted_witness :
  reachable Examples.with_three /\
  exists r self',
    get_low_stock_items (fst Examples.with_three) = Some (r, self') /\
    StronglySorted listing_le r.
Proof.
  split; [exact with_three_reachable|].
  apply (get_low_stock_items_sorted Examples.with_three).
  exact with_three_reachable.
Defined.

Lemma get_low_stock_items_twice_witness :
  reachable Examples.with_three /\
  exists r self1 self2,
    get_low_stock_items (fst Examples.with_three) = Some (r, self1) /\
    get_low_stock_items self1 = Some (r, self2).
Proof.
  split; [exact with_three_reachable|].
  apply (get_low_stock_items_twice Examples.with_three).
  exact with_three_reachable.
Defined.

(** The scenario of the specification: ["bolt"] at quantity 5 is listed
    under threshold 10, no longer once its quantity is 20, and again once
    the threshold is 25. *)
Example bolt_scenario :
  option_map fst (get_low_stock_items (fst Examples.with_bolt)) =
    Some [{| l_name := "bolt"; l_quantity := 5; l_price := 0.125%float |}] /\
  option_map fst (get_low_stock_items (fst Examples.bolt_refilled)) =
    Some [] /\
  option_map fst (get_low_stock_items (fst Examples.bolt_refilled_25)) =
    Some [{| l_name := "bolt"; l_quantity := 20; l_price := 0.125%float |}].
Proof. repeat split; reflexivity. Qed.

(** Three items of quantity 5, added as bolt, nut, axle, are listed by
    name. *)
Example equal_quantities_by_name :
  option_map (fun out => map l_name (fst out))
    (get_low_stock_items (fst Examples.with_three)) =
  Some ["axle"; "bolt"; "nut"].
Proof. reflexivity. Qed.

End Witnesses.

(** * Further properties of the manager *)

(** ** Listings and dictionaries *)

Section Listings.

Lemma fold_left_append {A B : Type} (f : A -> B) (l : list A) :
  forall acc, fold_left (fun acc x => acc ++ [f x]) l acc = acc ++ map f l.
Proof.
  induction l as [|a l IH]; intro acc; simpl.
  - now rewrite app_nil_r.
  - now rewrite IH, <- app_assoc.
Qed.

Lemma get_all_items_map (self : InventoryManager) :
  get_all_items self = map listing_of (items self).
Proof. unfold get_all_items. now rewrite (fold_left_append listing_of). Qed.

Lemma search_items_filter (lower : string -> string) (query : string)
    (self : InventoryManager) :
  search_items lower query self =
  map listing_of
    (filter (fun kv => str_in (lower query) (lower (fst kv))) (items self)).
Proof.
  unfold search_items.
  assert (Hgen : forall l acc,
            fold_left
              (fun results kv =>
                 if str_in (lower query) (lower (fst kv))
                 then results ++ [listing_of kv] else results) l acc =
            acc ++ map listing_of
                     (filter (fun kv => str_in (lower query) (lower (fst kv)))
                        l)).
  { induction l as [|kv l IH]; intro acc; simpl.
    - now rewrite app_nil_r.
    - rewrite IH. destruct (str_in _ _); simpl; auto.
      now rewrite <- app_assoc. }
  exact (Hgen (items self) []).
Qed.

Lemma not_key_map_id (d : dict) (name : string) (g : string * item -> string * item) :
  ~ In name (dict_keys d) ->
  map (fun kv => if String.eqb (fst kv) name then g kv else kv) d = d.
Proof.
  induction d as [|[k x] d IH]; simpl; intro Hn; auto.
  destruct (String.eqb_spec k name) as [-> | Hne]; [tauto|].
  rewrite IH; tauto.
Qed.

Lemma dict_modify_map (d : dict) (name : string) (f : item -> item) :
  NoDup (dict_keys d) ->
  dict_modify d name f =
  map (fun kv => if String.eqb (fst kv) name then (fst kv, f (snd kv)) else kv)
    d.
Proof.
  induction d as [|[k x] d IH]; simpl; intro Hnd; auto.
  inversion Hnd as [|? ? Hk Hd]; subst.
  destruct (String.eqb_spec k name) as [-> | Hne].
  - now rewrite (not_key_map_id d name (fun kv => (fst kv, f (snd kv)))).
  - now rewrite IH.
Qed.

Lemma dict_delitem_filter (d : dict) (name : string) :
  NoDup (dict_keys d) ->
  dict_delitem d name =
  filter (fun kv => negb (String.eqb (fst kv) name)) d.
Proof.
  induction d as [|[k x] d IH]; simpl; intro Hnd; auto.
  inversion Hnd as [|? ? Hk Hd]; subst.
  destruct (String.eqb_spec k name) as [-> | Hne]; simpl.
  - symmetry. apply forallb_filter_id. apply forallb_forall.
    intros [k' x'] Hin. simpl.
    destruct (String.eqb_spec k' name) as [-> | ?]; auto.
    destruct Hk. change name with (fst (name, x')). now apply in_map.
  - now rewrite IH.
Qed.

Lemma dict_get_delitem_same (d : dict) (name : string) :
  NoDup (dict_keys d) -> dict_get (dict_delitem d name) name = None.
Proof.
  induction d as [|[k x] d IH]; simpl; intro Hnd; auto.
  inversion Hnd as [|? ? Hk Hd]; subst.
  destruct (String.eqb_spec k name) as [-> | Hne]; simpl.
  - destruct (dict_get d name) as [it|] eqn:Hget; auto.
    destruct Hk. apply dict_contains_In. unfold dict_contains.
    now rewrite Hget.
  - destruct (String.eqb_spec k name); [congruence | auto].
Qed.

Lemma dict_get_delitem_other (d : dict) (name other : string) :
  other <> name ->
  dict_get (dict_delitem d name) other = dict_get d other.
Proof.
  intro Hne. induction d as [|[k x] d IH]; simpl; auto.
  destruct (String.eqb_spec k name) as [-> | Hk]; simpl.
  - destruct (String.eqb_spec name other); congruence.
  - now rewrite IH.
Qed.

Lemma dict_get_app_new (d : dict) (name other : string) (v : item) :
  dict_get (d ++ [(name, v)]) other =
  match dict_get d other with
  | Some it => Some it
  | None => if String.eqb name other then Some v else None
  end.
Proof.
  induction d as [|[k x] d IH]; simpl; auto.
  destruct (String.eqb k other); auto.
Qed.

End Listings.

(** ** Adding, deleting, changing the threshold, loading *)

Section Mutations.

Import heapq.

Context {db : Type} `{Sqlite3 db}.

(** X1. Whatever the heap held, [_rebuild_heap] leaves a heap (in the
    sense of [heapq]) whose entries are exactly the live entries of the
    items below the threshold, each once; the items and the threshold are
    not touched. *)
Theorem rebuild_heap_exact (self : InventoryManager) :
  items (_rebuild_heap self) = items self /\
  threshold (_rebuild_heap self) = threshold self /\
  is_heap (low_stock_heap (_rebuild_heap self)) /\
  Permutation (low_stock_heap (_rebuild_heap self))
    (map entry_of (low_items (items self) (threshold self))).
Proof.
  destruct (rebuild_fold (threshold self) (items self) [] is_heap_nil)
    as [Hh Hp].
  split; [reflexivity|]. split; [reflexivity|]. split; [exact Hh | exact Hp].
Qed.

(** X2. When [add_item(name, quantity, price)] answers
    [(True, "Item added successfully")], [name] was not a key before, it
    is now the last key and holds the quantity and price given, every
    other item is as before, and so is the threshold. The heap gained the
    entry [(quantity, name)] and stayed a heap when the quantity is below
    the threshold, and is untouched otherwise. *)
Theorem add_item_success (name : string) (q : Z) (p : float)
    (w w' : world) :
  add_item name q p w = (Returned (true, "Item added successfully"), w') ->
  dict_contains (items (fst w)) name = false /\
  items (fst w') =
    items (fst w) ++ [(name, {| quantity := q; price := p |})] /\
  dict_get (items (fst w')) name = Some {| quantity := q; price := p |} /\
  (forall other, other <> name ->
     dict_get (items (fst w')) other = dict_get (items (fst w)) other) /\
  threshold (fst w') = threshold (fst w) /\
  (if (q <? threshold (fst w))%Z
   then Permutation (low_stock_heap (fst w'))
          ((q, name) :: low_stock_heap (fst w)) /\
        (is_heap (low_stock_heap (fst w)) ->
         is_heap (low_stock_heap (fst w')))
   else low_stock_heap (fst w') = low_stock_heap (fst w)).
Proof.
  intro Hcall.
  destruct (add_item_outcome _ _ _ _ _ _ Hcall)
    as [[_ Hno] | [_ [Hc Hw]]]; [congruence|].
  assert (Hnone : dict_get (items (fst w)) name = None).
  { unfold dict_contains in Hc.
    destruct (dict_get (items (fst w)) name); [discriminate | reflexivity]. }
  assert (Hitems : items (fst w') =
                   items (fst w) ++ [(name, {| quantity := q; price := p |})]).
  { rewrite Hw. unfold stored. cbn [set_items threshold].
    destruct (q <? threshold (fst w))%Z;
      cbn [set_items set_low_stock_heap items];
      now apply dict_setitem_new. }
  split; [exact Hc|]. split; [exact Hitems|].
  split; [rewrite Hitems, dict_get_app_new, Hnone;
          now rewrite String.eqb_refl|].
  split.
  { intros other Hne. rewrite Hitems, dict_get_app_new.
    destruct (dict_get (items (fst w)) other); auto.
    destruct (String.eqb_spec name other); congruence. }
  rewrite Hw. unfold stored. cbn [set_items threshold].
  destruct (q <? threshold (fst w))%Z;
    cbn [set_items set_low_stock_heap low_stock_heap threshold];
    split; auto using heappush_Permutation, heappush_heap.
Qed.

(** X3. When [name] is not a key of [items] but the store rejects the
    [INSERT] with [sqlite3.IntegrityError], [add_item] closes the
    connection and answers [(False, "Item already exists")]; the manager is
    as before. *)
Theorem add_item_store_rejects (name : string) (q : Z) (p : float)
    (self : InventoryManager) (d d1 d2 d3 : db) :
  dict_contains (items self) name = false ->
  connect d = (None, d1) ->
  execute (InsertItem name q p) d1 = (Some IntegrityError, d2) ->
  close d2 = (None, d3) ->
  add_item name q p (self, d) =
    (Returned (false, "Item already exists"), (self, d3)).
Proof.
  intros Hc Hconnect Hinsert Hclose.
  unfold add_item, bind, get_self, ret, sql, assign,
    try_except_IntegrityError.
  cbn [fst snd]. rewrite Hc. cbn [fst snd]. rewrite Hconnect. cbn [fst snd].
  rewrite Hinsert. cbn [fst snd]. now rewrite Hclose.
Qed.

(** X4. Unless [add_item] answers [(True, "Item added successfully")],
    the manager is exactly as before, whether the call was rejected or an
    exception of the store ended it. *)
Theorem add_item_all_or_nothing (name : string) (q : Z) (p : float)
    (w : world) (r : result (bool * string)) (w' : world) :
  add_item name q p w = (r, w') ->
  r <> Returned (true, "Item added successfully") ->
  fst w' = fst w.
Proof.
  intros Hcall Hr.
  destruct (add_item_outcome _ _ _ _ _ _ Hcall) as [[Hw _] | [Hok _]];
    [exact Hw | contradiction].
Qed.

(** X5. When [delete_item(name)] answers
    [(True, "Item deleted successfully")] on a dictionary (no key twice),
    [name] is no longer a key, every other item and the threshold are as
    before, and the heap has been rebuilt: it is in step with the
    remaining items and holds no entry for [name]. *)
Theorem delete_item_success (name : string) (w w' : world) :
  NoDup (dict_keys (items (fst w))) ->
  delete_item name w =
    (Returned (true, "Item deleted successfully"), w') ->
  dict_get (items (fst w')) name = None /\
  (forall other, other <> name ->
     dict_get (items (fst w')) other = dict_get (items (fst w)) other) /\
  threshold (fst w') = threshold (fst w) /\
  in_step (fst w') /\
  (forall q, ~ In (q, name) (low_stock_heap (fst w'))).
Proof.
  intros Hnd Hcall.
  destruct (delete_item_outcome _ _ _ _ Hcall)
    as [[_ Hno] | [_ [_ [Ht [Hi Hr]]]]]; [congruence|].
  assert (Hnone : dict_get (items (fst w')) name = None)
    by (rewrite Hi; now apply dict_get_delitem_same).
  assert (Hin : in_step (fst w')).
  { apply in_step_rebuilt; auto. rewrite Hi. now apply dict_delitem_NoDup. }
  split; [exact Hnone|].
  split; [intros; rewrite Hi; now apply dict_get_delitem_other|].
  split; [exact Ht|]. split; [exact Hin|].
  intros q Hq. destruct Hin as [_ [_ Hp]].
  eapply Permutation_in in Hq; [|exact Hp].
  apply in_map_iff in Hq. destruct Hq as [[n it] [He Hkv]].
  injection He as _ ->. apply filter_In in Hkv. destruct Hkv as [Hkv _].
  assert (Hc : dict_contains (items (fst w')) name = true).
  { apply dict_contains_In. change name with (fst (name, it)).
    now apply in_map. }
  unfold dict_contains in Hc. now rewrite Hnone in Hc.
Qed.

(** X6. [set_threshold(t)] never touches an item and always leaves the
    threshold at [t], however the call ends; when it returns, the heap is
    a heap whose entries are exactly the live entries of the items with a
    quantity below [t]. *)
Theorem set_threshold_effect (t : Z) (w : world) (r : result unit)
    (w' : world) :
  set_threshold t w = (r, w') ->
  items (fst w') = items (fst w) /\
  threshold (fst w') = t /\
  (r = Returned tt ->
   is_heap (low_stock_heap (fst w')) /\
   Permutation (low_stock_heap (fst w'))
     (map entry_of (low_items (items (fst w)) t))).
Proof.
  intro Hcall.
  destruct (set_threshold_outcome _ _ _ _ Hcall) as [Hi [Ht Hr]].
  split; [exact Hi|]. split; [exact Ht|].
  intros ->. destruct Hr as [[_ Hr] | [e [[=] _]]].
  unfold rebuilt in Hr. rewrite Hr, Hi, Ht.
  destruct (rebuild_fold t (items (fst w)) [] is_heap_nil) as [Hh Hp].
  auto.
Qed.

Lemma load_rows_items (rows : list (string * Z * float)) :
  forall self,
    NoDup (map (fun r => fst (fst r)) rows) ->
    (forall r, In r rows -> ~ In (fst (fst r)) (dict_keys (items self))) ->
    items (fold_left load_row rows self) = items self ++ map row_item rows /\
    threshold (fold_left load_row rows self) = threshold self.
Proof.
  induction rows as [|r rows IH]; intros self Hnd Hnew; simpl.
  - now rewrite app_nil_r.
  - inversion Hnd as [|? ? Hr Hrows]; subst.
    assert (Hc : dict_contains (items self) (fst (fst r)) = false)
      by (apply dict_contains_false, Hnew; now left).
    assert (Hst : items (load_row self r) = items self ++ [row_item r] /\
                  threshold (load_row self r) = threshold self).
    { rewrite load_row_stored. unfold stored, row_item.
      cbn [set_items threshold].
      destruct (snd (fst r) <? threshold self)%Z;
        cbn [set_items set_low_stock_heap items threshold];
        now rewrite dict_setitem_new. }
    destruct Hst as [Hi Ht].
    destruct (IH (load_row self r) Hrows) as [IHi IHt].
    + intros r' Hr'. rewrite Hi. unfold dict_keys. rewrite map_app.
      rewrite in_app_iff. intros [Hk | [Hk | []]].
      * apply (Hnew r'); auto. now right.
      * apply Hr. simpl in Hk. rewrite Hk.
        exact (in_map (fun r => fst (fst r)) rows r' Hr').
    + rewrite IHi, IHt, Hi, Ht, <- app_assoc. auto.
Qed.

(** X7. When the store raises nothing, [load_items] replaces the
    dictionary by the rows of the [items] table, in the order the store
    gave them, takes the stored threshold (and keeps the current one when
    there is none), and leaves the heap in step with the items loaded,
    whatever the manager held before. *)
Theorem load_items_loads (self : InventoryManager) (d d1 d2 d3 d4 : db) :
  connect d = (None, d1) ->
  execute SelectItems d1 = (None, d2) ->
  execute SelectThreshold d2 = (None, d3) ->
  close d3 = (None, d4) ->
  exists self',
    load_items (self, d) = (Returned tt, (self', d4)) /\
    items self' = map row_item (fetchall_items d2) /\
    threshold self' =
      match fetchone_threshold d3 with
      | Some v => v
      | None => threshold self
      end /\
    in_step self'.
Proof.
  intros Hconnect Hitems Hthr Hclose.
  unfold load_items, bind, ret, sql, fetch, assign. cbn [fst snd].
  rewrite Hconnect. cbn [fst snd]. rewrite Hitems. cbn [fst snd].
  rewrite Hthr. cbn [fst snd].
  destruct (fetchone_threshold d3) as [v|]; cbn [fst snd];
    rewrite Hclose; cbn [fst snd]; eexists; (split; [reflexivity|]).
  - destruct (load_rows_items (fetchall_items d2)
                (set_low_stock_heap (fun _ => [])
                   (set_items (fun _ => []) (set_threshold_field v self)))
                (fetchall_items_unique d2) ltac:(intros r _ []))
      as [Hi Ht].
    split; [exact Hi|]. split; [exact Ht|].
    apply load_rows_in_step;
      [apply fetchall_items_unique | intros r _ [] | apply in_step_empty].
  - destruct (load_rows_items (fetchall_items d2)
                (set_low_stock_heap (fun _ => [])
                   (set_items (fun _ => []) self))
                (fetchall_items_unique d2) ltac:(intros r _ []))
      as [Hi Ht].
    split; [exact Hi|]. split; [exact Ht|].
    apply load_rows_in_step;
      [apply fetchall_items_unique | intros r _ [] |].
    cbn [set_low_stock_heap set_items].
    split; [constructor | split]; [apply is_heap_nil | constructor].
Qed.

End Mutations.

(** ** Listing all items after a change *)

Section ListingAfter.

Context {db : Type} `{Sqlite3 db}.

Lemma assign_fields_map (name : string) (q : option Z) (p : option float)
    (d : dict) :
  NoDup (dict_keys d) ->
  map listing_of (assign_fields name q p d) =
  map (updated_listing name q p) (map listing_of d).
Proof.
  intro Hnd. unfold assign_fields.
  assert (Hnd' : forall f, NoDup (dict_keys (dict_modify d name f)))
    by (intro f; now rewrite dict_keys_modify).
  rewrite !map_map.
  destruct q as [q|], p as [p|];
    rewrite ?(dict_modify_map (dict_modify d name (with_quantity q)))
      by apply Hnd';
    rewrite ?(dict_modify_map d) by exact Hnd;
    rewrite ?map_map; apply map_ext; intros [k [iq ip]];
    unfold updated_listing, listing_of; cbn [fst snd l_name];
    destruct (String.eqb k name) eqn:Hk; cbn [fst snd]; rewrite ?Hk;
    reflexivity.
Qed.

(** X8. After [add_item] answered [(True, "Item added successfully")],
    [get_all_items] returns what it returned before followed by the new
    item, with the quantity and price given. *)
Theorem get_all_items_after_add (name : string) (q : Z) (p : float)
    (w w' : world) :
  add_item name q p w = (Returned (true, "Item added successfully"), w') ->
  get_all_items (fst w') =
  get_all_items (fst w) ++
    [{| l_name := name; l_quantity := q; l_price := p |}].
Proof.
  intro Hcall.
  destruct (add_item_outcome _ _ _ _ _ _ Hcall)
    as [[_ Hno] | [_ [Hc Hw]]]; [congruence|].
  rewrite !get_all_items_map, Hw. unfold stored. cbn [set_items threshold].
  destruct (q <? threshold (fst w))%Z;
    cbn [set_items set_low_stock_heap items];
    rewrite dict_setitem_new by auto; now rewrite map_app.
Qed.

(** X9. After [update_item] answered [(True, "Item updated successfully")]
    on a dictionary (no key twice), [get_all_items] returns the same
    listings in the same order, except that the listing of [name] has the
    fields given. *)
Theorem get_all_items_after_update (name : string) (q : option Z)
    (p : option float) (w w' : world) :
  NoDup (dict_keys (items (fst w))) ->
  update_item name q p w =
    (Returned (true, "Item updated successfully"), w') ->
  get_all_items (fst w') =
  map (updated_listing name q p) (get_all_items (fst w)).
Proof.
  intros Hnd Hcall.
  destruct (update_item_outcome _ _ _ _ _ _ Hcall)
    as [[_ [[=] _]] | [_ [_ [[_ [Hi _]] | [e [q' [p' [[=] _]]]]]]]].
  rewrite !get_all_items_map, Hi. now apply assign_fields_map.
Qed.

(** X10. After [delete_item] answered
    [(True, "Item deleted successfully")] on a dictionary (no key twice),
    [get_all_items] returns what it returned before without the listing
    of [name], in the same order. *)
Theorem get_all_items_after_delete (name : string) (w w' : world) :
  NoDup (dict_keys (items (fst w))) ->
  delete_item name w =
    (Returned (true, "Item deleted successfully"), w') ->
  get_all_items (fst w') =
  filter (fun l => negb (String.eqb (l_name l) name))
    (get_all_items (fst w)).
Proof.
  intros Hnd Hcall.
  destruct (delete_item_outcome _ _ _ _ Hcall)
    as [[_ Hno] | [_ [_ [_ [Hi _]]]]]; [congruence|].
  rewrite !get_all_items_map, Hi, dict_delitem_filter by exact Hnd.
  clear. generalize (items (fst w)). intro d.
  induction d as [|[k x] d IH]; [reflexivity|].
  cbn [map filter fst listing_of l_name].
  destruct (String.eqb k name); cbn [negb map]; now rewrite IH.
Qed.

End ListingAfter.

(** ** The low-stock listing in any state *)

Section LowStockAnyState.

Import heapq.

Lemma live_low_In (d : dict) (thr : Z) (e : entry) (kv : string * item) :
  In kv (live_low d thr e) ->
  fst kv = snd e /\ dict_get d (fst kv) = Some (snd kv) /\
  (quantity (snd kv) <? thr)%Z = true.
Proof.
  unfold live_low. destruct (dict_get d (snd e)) as [it|] eqn:Hget;
    [|intros []].
  destruct (quantity it <? thr)%Z eqn:Hlow; [|intros []].
  intros [<- | []]. auto.
Qed.

Lemma live_low_entry_of (d : dict) (thr : Z) (e : entry)
    (kv : string * item) :
  In kv (live_low d thr e) -> live_low d thr (entry_of kv) = [kv].
Proof.
  intro Hin. destruct (live_low_In _ _ _ _ Hin) as [_ [Hget Hlow]].
  unfold live_low, entry_of. cbn [snd fst]. rewrite Hget, Hlow.
  now destruct kv.
Qed.

(** Reading the entries just read again changes nothing. *)
Lemma live_low_again (d : dict) (thr : Z) (l : list entry) :
  flat_map (live_low d thr) (map entry_of (flat_map (live_low d thr) l)) =
  flat_map (live_low d thr) l.
Proof.
  induction l as [|e l IH]; simpl; auto.
  rewrite map_app, flat_map_app, IH. f_equal.
  assert (Hall : forall kv, In kv (live_low d thr e) ->
                            live_low d thr (entry_of kv) = [kv])
    by (intros; eapply live_low_entry_of; eauto).
  induction (live_low d thr e) as [|kv l' IH']; simpl; auto.
  rewrite Hall by now left. simpl. f_equal. apply IH'.
  intros; apply Hall; now right.
Qed.

Lemma all_live_read (d : dict) (thr : Z) (l : list entry) :
  all_live d thr (map entry_of (flat_map (live_low d thr) l)).
Proof.
  intros e He. apply in_map_iff in He. destruct He as [kv [<- Hkv]].
  apply in_flat_map in Hkv. destruct Hkv as [e' [_ Hkv]].
  destruct (live_low_In _ _ _ _ Hkv) as [_ [Hget Hlow]].
  exists (snd kv). auto.
Qed.

Lemma all_live_entries (d : dict) (thr : Z) (l : list entry) :
  all_live d thr l -> map entry_of (flat_map (live_low d thr) l) = l.
Proof.
  intro Hall. induction l as [|e l IH]; simpl; auto.
  rewrite map_app, IH by (intros e' He'; apply Hall; now right).
  destruct (Hall e ltac:(now left)) as [it [Hget [Hq Hlow]]].
  unfold live_low. rewrite Hget, Hlow. unfold entry_of. simpl.
  rewrite Hq. now destruct e.
Qed.

Lemma all_live_Permutation (d : dict) (thr : Z) (l l' : list entry) :
  Permutation l l' -> all_live d thr l -> all_live d thr l'.
Proof.
  intros Hp Hall e He. apply Hall.
  eapply Permutation_in; [symmetry; exact Hp | exact He].
Qed.

(** A listing read is a live item below the threshold. *)
Lemma listing_is_live (self : InventoryManager)
    (r : list listing) (self' : InventoryManager) (l : listing) :
  get_low_stock_items self = Some (r, self') ->
  In l r ->
  dict_get (items self) (l_name l) =
    Some {| quantity := l_quantity l; price := l_price l |} /\
  (l_quantity l < threshold self)%Z.
Proof.
  rewrite get_low_stock_items_pop_order. intros [= <- _] Hl.
  apply in_map_iff in Hl. destruct Hl as [kv [<- Hkv]].
  apply in_flat_map in Hkv. destruct Hkv as [e [_ Hkv]].
  destruct (live_low_In _ _ _ _ Hkv) as [_ [Hget Hlow]].
  unfold listing_of. cbn [l_name l_quantity l_price].
  split; [rewrite Hget; now destruct (snd kv) | now apply Z.ltb_lt].
Qed.

(** X12. In every state, whatever the heap holds, every listing that
    [get_low_stock_items] returns is an item of the dictionary with its
    current quantity and price, and that quantity is below the threshold:
    a stale entry never shows in the result. *)
Theorem low_stock_listing_sound (self : InventoryManager)
    (r : list listing) (self' : InventoryManager) (l : listing) :
  get_low_stock_items self = Some (r, self') ->
  In l r ->
  dict_get (items self) (l_name l) =
    Some {| quantity := l_quantity l; price := l_price l |} /\
  (l_quantity l < threshold self)%Z.
Proof. intros Hget Hl. exact (listing_is_live self r self' l Hget Hl). Qed.

(** X13. From any state, whatever the heap holds, one call of
    [get_low_stock_items] settles the heap: the second call returns the
    items of the first, sorted by quantity and then name, and from then on
    a call returns that same list and leaves the manager as it is. *)
Theorem get_low_stock_items_settles (self : InventoryManager) :
  exists r1 self1 r2 self2,
    get_low_stock_items self = Some (r1, self1) /\
    get_low_stock_items self1 = Some (r2, self2) /\
    get_low_stock_items self2 = Some (r2, self2) /\
    Permutation r2 r1 /\
    StronglySorted listing_le r2.
Proof.
  set (d := items self). set (thr := threshold self).
  set (po1 := pop_order (length (low_stock_heap self)) (low_stock_heap self)).
  set (h1 := heapify (map entry_of (flat_map (live_low d thr) po1))).
  set (po2 := pop_order (length h1) h1).
  set (h2 := heapify po2).
  assert (Hpo2 : Permutation po2
                   (map entry_of (flat_map (live_low d thr) po1))).
  { unfold po2. rewrite pop_order_Permutation by lia.
    apply heapify_Permutation. }
  assert (Hlive2 : all_live d thr po2).
  { eapply all_live_Permutation; [symmetry; exact Hpo2|].
    apply all_live_read. }
  assert (Hent2 : map entry_of (flat_map (live_low d thr) po2) = po2)
    by now apply all_live_entries.
  assert (Hsorted2 : StronglySorted entry_le po2)
    by (apply pop_order_sorted; [lia | apply heapify_heap]).
  assert (Hpo3 : pop_order (length h2) h2 = po2).
  { apply sorted_unique; auto.
    - apply pop_order_sorted; [lia | apply heapify_heap].
    - rewrite pop_order_Permutation by lia. apply heapify_Permutation. }
  exists (map listing_of (flat_map (live_low d thr) po1)).
  exists (set_low_stock_heap (fun _ => h1) self).
  exists (map listing_of (flat_map (live_low d thr) po2)).
  exists (set_low_stock_heap (fun _ => h2) self).
  split; [apply get_low_stock_items_pop_order|].
  split.
  { rewrite get_low_stock_items_pop_order.
    cbn [set_low_stock_heap items threshold low_stock_heap].
    fold d thr po2. now rewrite Hent2. }
  split.
  { rewrite get_low_stock_items_pop_order.
    cbn [set_low_stock_heap items threshold low_stock_heap].
    fold d thr. rewrite Hpo3, Hent2. reflexivity. }
  split.
  { apply Permutation_map.
    rewrite <- (live_low_again d thr po1).
    now apply Permutation_flat_map. }
  apply (StronglySorted_weaken _ _ _ listing_le_entry_le).
  apply StronglySorted_map. rewrite map_map.
  rewrite (map_ext _ entry_of listing_key_of), Hent2. exact Hsorted2.
Qed.

End LowStockAnyState.

(** ** The heap and the listing after a change *)

Section AfterChange.

Import heapq.

Context {db : Type} `{Sqlite3 db}.

Lemma low_items_keys_NoDup (d : dict) (thr : Z) :
  NoDup (dict_keys d) -> NoDup (map fst (low_items d thr)).
Proof.
  unfold low_items. induction d as [|kv d IH]; simpl; intro Hnd;
    [constructor|].
  inversion Hnd as [|? ? Hk Hd]; subst.
  destruct (is_low thr kv); simpl; auto.
  constructor; auto. intro Hin. apply Hk.
  apply in_map_iff in Hin. destruct Hin as [kv' [Hf Hin]].
  apply filter_In in Hin. rewrite <- Hf. apply in_map. tauto.
Qed.

Lemma in_step_entries (self : InventoryManager) (q : Z) (name : string) :
  in_step self ->
  (In (q, name) (low_stock_heap self) <->
   exists it, dict_get (items self) name = Some it /\
              quantity it = q /\ (q < threshold self)%Z).
Proof.
  intros [Hnd [_ Hp]]. split.
  - intro Hin. eapply Permutation_in in Hin; [|exact Hp].
    apply in_map_iff in Hin. destruct Hin as [[n it] [He Hkv]].
    injection He as <- <-. apply filter_In in Hkv.
    destruct Hkv as [Hkv Hlow]. exists it.
    split; [now apply In_dict_get|]. split; [reflexivity|].
    now apply Z.ltb_lt.
  - intros [it [Hget [<- Hlow]]].
    eapply Permutation_in; [symmetry; exact Hp|].
    change (quantity it, name) with (entry_of (name, it)).
    apply in_map, filter_In. split; [now apply dict_get_In|].
    now apply Z.ltb_lt.
Qed.

(** With the heap in step, every item below the threshold is read. *)
Lemma in_step_listed (self : InventoryManager) (r : list listing)
    (self' : InventoryManager) (name : string) (it : item) :
  in_step self -> get_low_stock_items self = Some (r, self') ->
  dict_get (items self) name = Some it ->
  (quantity it < threshold self)%Z ->
  In (listing_of (name, it)) r.
Proof.
  intros Hin Hget Hit Hlow.
  destruct (read_in_step self Hin) as [_ Hlive].
  rewrite get_low_stock_items_pop_order in Hget. injection Hget as <- _.
  apply in_map. eapply Permutation_in; [symmetry; exact Hlive|].
  apply filter_In. split; [now apply dict_get_In|].
  now apply Z.ltb_lt.
Qed.

(** X11. In every state of a run, no key occurs twice in [items], the
    heap is a heap in the sense of [heapq], it holds at most one entry per
    name, and [(q, name)] is an entry exactly when [name] is an item whose
    current quantity is [q] and is below the threshold: the heap never
    holds a stale entry. *)
Theorem run_heap_exact (w : world) :
  reachable w ->
  NoDup (dict_keys (items (fst w))) /\
  is_heap (low_stock_heap (fst w)) /\
  NoDup (map snd (low_stock_heap (fst w))) /\
  (forall q name,
     In (q, name) (low_stock_heap (fst w)) <->
     exists it, dict_get (items (fst w)) name = Some it /\
                quantity it = q /\ (q < threshold (fst w))%Z).
Proof.
  intro Hreach. pose proof (reachable_in_step w Hreach) as Hin.
  pose proof Hin as [Hnd [Hh Hp]].
  split; [exact Hnd|]. split; [exact Hh|]. split.
  - eapply Permutation_NoDup;
      [apply Permutation_map; symmetry; exact Hp|].
    rewrite map_map. cbn [entry_of snd].
    now apply low_items_keys_NoDup.
  - intros q name. now apply in_step_entries.
Qed.

(** X14. After [update_item(name, quantity=q, ...)] answered
    [(True, "Item updated successfully")] on a dictionary (no key twice),
    [get_low_stock_items] lists [name] exactly when [q] is below the
    threshold. *)
Theorem update_quantity_then_listed (name : string) (q : Z)
    (p : option float) (w w' : world) :
  NoDup (dict_keys (items (fst w))) ->
  update_item name (Some q) p w =
    (Returned (true, "Item updated successfully"), w') ->
  exists r self',
    get_low_stock_items (fst w') = Some (r, self') /\
    (In name (map l_name r) <-> (q < threshold (fst w))%Z).
Proof.
  intros Hnd Hcall.
  destruct (update_item_outcome _ _ _ _ _ _ Hcall)
    as [[_ [[=] _]] | [Hc [Ht [[_ [Hi Hr]] | [e [q' [p' [[=] _]]]]]]]].
  assert (Hin : in_step (fst w')).
  { apply in_step_rebuilt; auto. rewrite Hi.
    unfold assign_fields. destruct p; now rewrite ?dict_keys_modify. }
  assert (Hit : exists it', dict_get (items (fst w')) name = Some it' /\
                            quantity it' = q).
  { unfold dict_contains in Hc.
    destruct (dict_get (items (fst w)) name) as [it|] eqn:Hget;
      [|discriminate].
    eexists. rewrite Hi, assign_fields_same, Hget. cbn [option_map].
    split; reflexivity. }
  destruct Hit as [it' [Hit' Hq]].
  destruct (get_low_stock_items_returns (fst w')) as [r [self' Hget]].
  exists r, self'. split; [exact Hget|]. rewrite <- Ht. split.
  - intro Hname. apply in_map_iff in Hname.
    destruct Hname as [l [Hl Hlr]].
    destruct (listing_is_live _ _ _ _ Hget Hlr) as [Hd Hlow].
    rewrite Hl, Hit' in Hd. injection Hd as Hd. rewrite <- Hq, Hd.
    exact Hlow.
  - intro Hlow. apply in_map_iff. exists (listing_of (name, it')).
    split; [reflexivity|].
    eapply in_step_listed; eauto. now rewrite Hq.
Qed.

(** X15. After [set_threshold(t)] returned on a dictionary (no key
    twice), [get_low_stock_items] lists an item, with its quantity and
    price, exactly when its quantity is below [t]. *)
Theorem set_threshold_then_listed (t : Z) (w w' : world) :
  NoDup (dict_keys (items (fst w))) ->
  set_threshold t w = (Returned tt, w') ->
  exists r self',
    get_low_stock_items (fst w') = Some (r, self') /\
    forall name it,
      dict_get (items (fst w)) name = Some it ->
      (In (listing_of (name, it)) r <-> (quantity it < t)%Z).
Proof.
  intros Hnd Hcall.
  destruct (set_threshold_outcome _ _ _ _ Hcall)
    as [Hi [Ht [[_ Hr] | [e [[=] _]]]]].
  assert (Hin : in_step (fst w'))
    by (apply in_step_rebuilt; auto; now rewrite Hi).
  destruct (get_low_stock_items_returns (fst w')) as [r [self' Hget]].
  exists r, self'. split; [exact Hget|].
  intros name it Hit. rewrite <- Ht. split.
  - intro Hl.
    destruct (listing_is_live _ _ _ _ Hget Hl) as [_ Hlow].
    exact Hlow.
  - intro Hlow. eapply in_step_listed; eauto. now rewrite Hi.
Qed.

End AfterChange.

(** ** Searching *)

Section Searching.

Lemma str_startswith_spec (prefix s : string) :
  str_startswith prefix s = true <->
  exists post, s = String.append prefix post.
Proof.
  revert s. induction prefix as [|a prefix IH]; intro s; simpl.
  - split; [intros _; now exists s | reflexivity].
  - destruct s as [|b s]; [split; [discriminate | intros [post [=]]]|].
    rewrite andb_true_iff, IH, Ascii.eqb_eq. split.
    + intros [-> [post ->]]. now exists post.
    + intros [post [= -> ->]]. split; [reflexivity | now exists post].
Qed.

Lemma str_in_spec (needle hay : string) :
  str_in needle hay = true <-> occurs_in needle hay.
Proof.
  unfold occurs_in. induction hay as [|c hay IH]; simpl;
    rewrite orb_true_iff, str_startswith_spec.
  - split.
    + intros [[post Hpost] | [=]]. now exists String.EmptyString, post.
    + intros [[|a pre] [post Hpost]]; [|discriminate]. left. now exists post.
  - rewrite IH. split.
    + intros [[post Hpost] | [pre [post ->]]].
      * now exists String.EmptyString, post.
      * now exists (String.String c pre), post.
    + intros [[|a pre] [post Hpost]].
      * left. now exists post.
      * right. injection Hpost as _ ->. now exists pre, post.
Qed.

Variable lower : string -> string.

(** X16. [search_items(query)] returns exactly the listings of
    [get_all_items] whose lower-cased name contains the lower-cased query
    (some text, then the query, then some text), in the same order. *)
Theorem search_items_matches (query : string) (self : InventoryManager) :
  search_items lower query self =
    filter (fun l => str_in (lower query) (lower (l_name l)))
      (get_all_items self) /\
  forall l,
    In l (search_items lower query self) <->
    In l (get_all_items self) /\
    occurs_in (lower query) (lower (l_name l)).
Proof.
  assert (Heq : search_items lower query self =
                filter (fun l => str_in (lower query) (lower (l_name l)))
                  (get_all_items self)).
  { rewrite search_items_filter, get_all_items_map.
    generalize (items self). intro d.
    induction d as [|kv d IH]; [reflexivity|].
    cbn [map filter listing_of l_name].
    destruct (str_in (lower query) (lower (fst kv))); cbn [map];
      now rewrite IH. }
  split; [exact Heq|].
  intro l. rewrite Heq, filter_In, str_in_spec. reflexivity.
Qed.

(** X17. When lower-casing leaves the empty string empty, as
    [str.lower] does, [search_items("")] returns all the items, as
    [get_all_items] does. *)
Theorem search_items_empty_query (self : InventoryManager) :
  lower String.EmptyString = String.EmptyString ->
  search_items lower String.EmptyString self = get_all_items self.
Proof.
  intro Hlower. rewrite search_items_filter, get_all_items_map, Hlower.
  f_equal. apply forallb_filter_id, forallb_forall.
  intros kv _. now destruct (lower (fst kv)).
Qed.

(** X18. Searching for the name of an item finds that item, with its
    quantity and price. *)
Theorem search_items_finds_name (name : string) (it : item)
    (self : InventoryManager) :
  dict_get (items self) name = Some it ->
  In {| l_name := name; l_quantity := quantity it; l_price := price it |}
    (search_items lower name self).
Proof.
  intro Hget. rewrite search_items_filter.
  change {| l_name := name; l_quantity := quantity it; l_price := price it |}
    with (listing_of (name, it)).
  apply in_map, filter_In. split; [now apply dict_get_In|].
  cbn [fst]. apply str_in_spec.
  exists String.EmptyString, String.EmptyString. simpl.
  induction (lower name) as [|c s IH]; simpl; congruence.
Qed.

End Searching.

(** ** The further properties at work on concrete runs *)

Section FurtherWitnesses.

Ltac distinct_names := repeat constructor; simpl; intuition discriminate.

Lemma add_item_success_witness :
  add_item "bolt" 5 0.125%float Examples.fresh =
    (Returned (true, "Item added successfully"), Examples.with_bolt) /\
  dict_contains (items (fst Examples.fresh)) "bolt" = false /\
  items (fst Examples.with_bolt) =
    items (fst Examples.fresh) ++
      [("bolt", {| quantity := 5; price := 0.125%float |})] /\
  dict_get (items (fst Examples.with_bolt)) "bolt" =
    Some {| quantity := 5; price := 0.125%float |} /\
  (forall other, other <> "bolt" ->
     dict_get (items (fst Examples.with_bolt)) other =
     dict_get (items (fst Examples.fresh)) other) /\
  threshold (fst Examples.with_bolt) = threshold (fst Examples.fresh) /\
  (if (5 <? threshold (fst Examples.fresh))%Z
   then Permutation (low_stock_heap (fst Examples.with_bolt))
          ((5%Z, "bolt") :: low_stock_heap (fst Examples.fresh)) /\
        (is_heap (low_stock_heap (fst Examples.fresh)) ->
         is_heap (low_stock_heap (fst Examples.with_bolt)))
   else low_stock_heap (fst Examples.with_bolt) =
        low_stock_heap (fst Examples.fresh)).
Proof.
  split; [reflexivity|].
  apply (add_item_success "bolt" 5 0.125%float Examples.fresh
           Examples.with_bolt).
  reflexivity.
Defined.

Lemma add_item_store_rejects_witness :
  dict_contains (items (fst Examples.store_has_bolt)) "bolt" = false /\
  add_item "bolt" 5 0.125%float
    (fst Examples.store_has_bolt, snd Examples.store_has_bolt) =
    (Returned (false, "Item already exists"),
     (fst Examples.store_has_bolt, snd Examples.store_has_bolt)).
Proof.
  split; [reflexivity|].
  apply (add_item_store_rejects "bolt" 5 0.125%float
           (fst Examples.store_has_bolt)
           (snd Examples.store_has_bolt) (snd Examples.store_has_bolt)
           (snd Examples.store_has_bolt) (snd Examples.store_has_bolt));
    reflexivity.
Defined.

Lemma add_item_all_or_nothing_witness :
  fst (add_item "bolt" 7 1%float Examples.store_has_bolt) <>
    Returned (true, "Item added successfully") /\
  fst (snd (add_item "bolt" 7 1%float Examples.store_has_bolt)) =
    fst Examples.store_has_bolt.
Proof.
  split; [vm_compute; discriminate|].
  apply (add_item_all_or_nothing "bolt" 7 1%float Examples.store_has_bolt
           (fst (add_item "bolt" 7 1%float Examples.store_has_bolt))
           (snd (add_item "bolt" 7 1%float Examples.store_has_bolt)));
    [reflexivity | vm_compute; discriminate].
Defined.

Lemma delete_item_success_witness :
  NoDup (dict_keys (items (fst Examples.with_three))) /\
  delete_item "nut" Examples.with_three =
    (Returned (true, "Item deleted successfully"), Examples.nut_deleted) /\
  dict_get (items (fst Examples.nut_deleted)) "nut" = None /\
  (forall other, other <> "nut" ->
     dict_get (items (fst Examples.nut_deleted)) other =
     dict_get (items (fst Examples.with_three)) other) /\
  threshold (fst Examples.nut_deleted) =
    threshold (fst Examples.with_three) /\
  in_step (fst Examples.nut_deleted) /\
  (forall q, ~ In (q, "nut") (low_stock_heap (fst Examples.nut_deleted))).
Proof.
  split; [distinct_names|]. split; [reflexivity|].
  apply (delete_item_success "nut" Examples.with_three Examples.nut_deleted);
    [distinct_names | reflexivity].
Defined.

Lemma set_threshold_effect_witness :
  set_threshold 25 Examples.bolt_refilled =
    (Returned tt, Examples.bolt_refilled_25) /\
  items (fst Examples.bolt_refilled_25) =
    items (fst Examples.bolt_refilled) /\
  threshold (fst Examples.bolt_refilled_25) = 25%Z /\
  (Returned tt = Returned tt ->
   is_heap (low_stock_heap (fst Examples.bolt_refilled_25)) /\
   Permutation (low_stock_heap (fst Examples.bolt_refilled_25))
     (map entry_of (low_items (items (fst Examples.bolt_refilled)) 25))).
Proof.
  split; [reflexivity|].
  apply (set_threshold_effect 25 Examples.bolt_refilled (Returned tt)
           Examples.bolt_refilled_25).
  reflexivity.
Defined.

Lemma load_items_loads_witness :
  exists self',
    load_items (fst Examples.fresh, snd Examples.with_three) =
      (Returned tt, (self', snd Examples.with_three)) /\
    items self' =
      map row_item (fetchall_items (snd Examples.with_three)) /\
    threshold self' =
      match fetchone_threshold (snd Examples.with_three) with
      | Some v => v
      | None => threshold (fst Examples.fresh)
      end /\
    in_step self'.
Proof.
  apply (load_items_loads (fst Examples.fresh)
           (snd Examples.with_three) (snd Examples.with_three)
           (snd Examples.with_three) (snd Examples.with_three)
           (snd Examples.with_three));
    reflexivity.
Defined.

Lemma get_all_items_after_add_witness :
  add_item "bolt" 5 0.125%float Examples.fresh =
    (Returned (true, "Item added successfully"), Examples.with_bolt) /\
  get_all_items (fst Examples.with_bolt) =
  get_all_items (fst Examples.fresh) ++
    [{| l_name := "bolt"; l_quantity := 5; l_price := 0.125%float |}].
Proof.
  split; [reflexivity|].
  apply (get_all_items_after_add "bolt" 5 0.125%float Examples.fresh
           Examples.with_bolt).
  reflexivity.
Defined.

Lemma get_all_items_after_update_witness :
  NoDup (dict_keys (items (fst Examples.with_three))) /\
  update_item "nut" (Some 30%Z) None Examples.with_three =
    (Returned (true, "Item updated successfully"), Examples.nut_updated) /\
  get_all_items (fst Examples.nut_updated) =
  map (updated_listing "nut" (Some 30%Z) None)
    (get_all_items (fst Examples.with_three)).
Proof.
  split; [distinct_names|]. split; [reflexivity|].
  apply (get_all_items_after_update "nut" (Some 30%Z) None
           Examples.with_three Examples.nut_updated);
    [distinct_names | reflexivity].
Defined.

Lemma get_all_items_after_delete_witness :
  NoDup (dict_keys (items (fst Examples.with_three))) /\
  delete_item "nut" Examples.with_three =
    (Returned (true, "Item deleted successfully"), Examples.nut_deleted) /\
  get_all_items (fst Examples.nut_deleted) =
  filter (fun l => negb (String.eqb (l_name l) "nut"))
    (get_all_items (fst Examples.with_three)).
Proof.
  split; [distinct_names|]. split; [reflexivity|].
  apply (get_all_items_after_delete "nut" Examples.with_three
           Examples.nut_deleted);
    [distinct_names | reflexivity].
Defined.

Lemma run_heap_exact_witness :
  reachable Examples.with_three /\
  NoDup (dict_keys (items (fst Examples.with_three))) /\
  is_heap (low_stock_heap (fst Examples.with_three)) /\
  NoDup (map snd (low_stock_heap (fst Examples.with_three))) /\
  (forall q name,
     In (q, name) (low_stock_heap (fst Examples.with_three)) <->
     exists it, dict_get (items (fst Examples.with_three)) name = Some it /\
                quantity it = q /\
                (q < threshold (fst Examples.with_three))%Z).
Proof.
  split; [exact with_three_reachable|].
  apply (run_heap_exact Examples.with_three).
  exact with_three_reachable.
Defined.

Lemma low_stock_listing_sound_witness :
  get_low_stock_items Examples.stale =
    Some ([{| l_name := "a"; l_quantity := 5; l_price := 0.5%float |}],
          {| items := [("a", {| quantity := 5; price := 0.5%float |})];
             low_stock_heap := [(5, "a")];
             threshold := 10 |}) /\
  dict_get (items Examples.stale) "a" =
    Some {| quantity := 5; price := 0.5%float |} /\
  (5 < threshold Examples.stale)%Z.
Proof.
  split; [reflexivity|].
  apply (low_stock_listing_sound Examples.stale
           [{| l_name := "a"; l_quantity := 5; l_price := 0.5%float |}]
           {| items := [("a", {| quantity := 5; price := 0.5%float |})];
              low_stock_heap := [(5, "a")];
              threshold := 10 |}
           {| l_name := "a"; l_quantity := 5; l_price := 0.5%float |});
    [reflexivity | simpl; auto].
Defined.

Lemma update_quantity_then_listed_witness :
  NoDup (dict_keys (items (fst Examples.with_bolt))) /\
  update_item "bolt" (Some 20%Z) None Examples.with_bolt =
    (Returned (true, "Item updated successfully"), Examples.bolt_refilled) /\
  exists r self',
    get_low_stock_items (fst Examples.bolt_refilled) = Some (r, self') /\
    (In "bolt" (map l_name r) <->
     (20 < threshold (fst Examples.with_bolt))%Z).
Proof.
  split; [distinct_names|]. split; [reflexivity|].
  apply (update_quantity_then_listed "bolt" 20 None Examples.with_bolt
           Examples.bolt_refilled);
    [distinct_names | reflexivity].
Defined.

Lemma set_threshold_then_listed_witness :
  NoDup (dict_keys (items (fst Examples.bolt_refilled))) /\
  set_threshold 25 Examples.bolt_refilled =
    (Returned tt, Examples.bolt_refilled_25) /\
  exists r self',
    get_low_stock_items (fst Examples.bolt_refilled_25) = Some (r, self') /\
    forall name it,
      dict_get (items (fst Examples.bolt_refilled)) name = Some it ->
      (In (listing_of (name, it)) r <-> (quantity it < 25)%Z).
Proof.
  split; [distinct_names|]. split; [reflexivity|].
  apply (set_threshold_then_listed 25 Examples.bolt_refilled
           Examples.bolt_refilled_25);
    [distinct_names | reflexivity].
Defined.

Lemma search_items_empty_query_witness :
  ascii_lower String.EmptyString = String.EmptyString /\
  search_items ascii_lower String.EmptyString (fst Examples.with_three) =
  get_all_items (fst Examples.with_three).
Proof.
  split; [reflexivity|].
  apply (search_items_empty_query ascii_lower (fst Examples.with_three)).
  reflexivity.
Defined.

Lemma search_items_finds_name_witness :
  dict_get (items (fst Examples.with_three)) "nut" =
    Some {| quantity := 5; price := 0.5%float |} /\
  In {| l_name := "nut"; l_quantity := 5; l_price := 0.5%float |}
    (search_items ascii_lower "nut" (fst Examples.with_three)).
Proof.
  split; [reflexivity|].
  apply (search_items_finds_name ascii_lower "nut"
           {| quantity := 5; price := 0.5%float |}
           (fst Examples.with_three)).
  reflexivity.
Defined.

(** The searches of the specification: ["BO"] finds ["bolt"] only, the
    empty query finds everything. *)
Example search_scenario :
  map l_name (search_items ascii_lower "BO" (fst Examples.with_three)) =
    ["bolt"] /\
  map l_name (search_items ascii_lower "" (fst Examples.with_three)) =
    ["bolt"; "nut"; "axle"].
Proof. split; reflexivity. Qed.

End FurtherWitnesses.
